(** * Crossword converters to IPUZ: a shallow embedding and its properties

    The repository converts two crossword source formats to the IPUZ
    interchange schema:

    - [convertSMHToIPUZ] (src/smhApi.js) takes a grid of rows of characters,
      works out which cells start a word, numbers them, and assembles the
      clue lists;
    - [convertToIPUZ] (the worker script) takes a flat list of cell records
      that already carry their labels, and a list of clues.

    Both are embedded below as Rocq functions, loop by loop.  A JavaScript
    value that the code guards before use ([x || d], [if (x)], [!x],
    [Array.isArray x]) is an [option]; a value it uses unguarded has the
    type the code needs at that place. *)

From Stdlib Require Import ZArith Ascii String List Decimal DecimalNat DecimalString.
From Stdlib Require Import Sorting.Sorted Sorting.Permutation.
From stdpp Require Import base tactics option list strings gmap.

Open Scope string_scope.
Open Scope list_scope.
Open Scope nat_scope.

(** ** JavaScript primitives used by both converters *)

Module Js.

(** [`${n}`] for a non-negative integer [n]: its decimal digits.  The
    integers printed here are cell counts and loop indices of a grid held in
    memory, far below the size at which JavaScript loses exactness or
    switches to exponent notation. *)
Definition natToString (n : nat) : string :=
  NilZero.string_of_uint (Nat.to_uint n).

(** Truthiness of a string that may be absent: [undefined], [null] and the
    empty string are falsy. *)
Definition truthy (s : option string) : bool :=
  match s with
  | Some (String _ _) => true
  | _ => false
  end.

(** [s || d] on strings. *)
Definition orElse (s : option string) (d : string) : string :=
  if truthy s then default d s else d.

(** An object whose keys are not array indices, as the sequence of its own
    properties in insertion order (the order of [Object.entries]). *)
Definition obj (V : Type) : Type := list (string * V).

(** [o[k]] for an own property; [None] is [undefined]. *)
Fixpoint objGet {V} (k : string) (o : obj V) : option V :=
  match o with
  | [] => None
  | (k', v) :: rest => if String.eqb k k' then Some v else objGet k rest
  end.

(** [o[k] = v]: an existing property keeps its place, a new one goes last. *)
Fixpoint objSet {V} (k : string) (v : V) (o : obj V) : obj V :=
  match o with
  | [] => [(k, v)]
  | (k', v') :: rest =>
      if String.eqb k k' then (k', v) :: rest else (k', v') :: objSet k v rest
  end.

(** [s.split(c)] for a one-character separator. *)
Fixpoint splitAux (c : ascii) (s : string) (cur : string) : list string :=
  match s with
  | EmptyString => [cur]
  | String a rest =>
      if Ascii.eqb a c then cur :: splitAux c rest ""
      else splitAux c rest (cur +:+ String a "")
  end.

Definition split (c : ascii) (s : string) : list string := splitAux c s "".

(** [Number(s)] on the strings the converter builds, which are runs of
    decimal digits; any other string reads as [NaN], here [None]. *)
Definition toNumber (s : string) : option nat :=
  Nat.of_uint <$> NilEmpty.uint_of_string s.

(** [xs.sort((a, b) => key a - key b)] for integer keys.  The language
    requires the sort to be stable, and with a comparator that is a
    difference of integers the result is the one stable ordering; it is
    computed here by insertion from the right. *)
Section Sort.
Context {A : Type} (key : A → nat).

Definition cmp (a b : A) : Z := (Z.of_nat (key a) - Z.of_nat (key b))%Z.

Fixpoint insertBy (a : A) (l : list A) : list A :=
  match l with
  | [] => [a]
  | b :: rest => if (cmp a b <=? 0)%Z then a :: b :: rest else b :: insertBy a rest
  end.

Definition sortBy (l : list A) : list A := foldr insertBy [] l.
End Sort.

End Js.

(** ** The grid-string converter, src/smhApi.js *)

Module Smh.

(** *** Source document *)

(** A row is a JavaScript string or an array of one-character strings; both
    are indexed alike.  On a document of the types below no statement of
    the function throws: every row it indexes exists, so the embedding
    returns the document itself rather than a result or an exception. *)
Definition Row := list ascii.
Definition Grid := list Row.

Record ClueRef := { position : Z; question : option string }.

Record Clues := { srcAcross : option (list ClueRef); srcDown : option (list ClueRef) }.

Record Game := { grid : Grid; srcClues : option Clues }.

Record Puzzle := {
  game : Game;
  difficulty : option string;
  srcAuthor : option string;
  srcDate : option string
}.

(** *** Target document *)

(** A cell of the puzzle grid: ['#'] or a number. *)
Inductive PuzzleCell := Block | Num (n : nat).

(** A cell of the solution grid: ['#'] or the source cell itself, which is
    [undefined] ([None]) where a row is shorter than the first one. *)
Definition SolutionCell := option ascii.

Record ClueEntry := {
  number : nat;
  clue : string;
  answer : string;
  row : option nat;
  col : option nat
}.

Record Dimensions := { width : nat; height : nat }.

Record Ipuz := {
  version : string;
  kind : list string;
  dimensions : Dimensions;
  puzzle : list (list PuzzleCell);
  solution : list (list SolutionCell);
  across : list (string * string);
  down : list (string * string);
  title : string;
  author : string;
  copyright : string;
  publisher : string;
  date : string
}.

(** *** First pass: numbering *)

(** [grid[y][x]]; every use below has [y] within the grid. *)
Definition cellAt (g : Grid) (y x : nat) : option ascii :=
  g !! y ≫= (.!! x).

(** [c === '.'] *)
Definition isBlock (c : option ascii) : bool :=
  match c with
  | Some a => Ascii.eqb a "."
  | None => false
  end.

Definition gridHeight (g : Grid) : nat := length g.

(** [height > 0 ? grid[0].length : 0] *)
Definition gridWidth (g : Grid) : nat :=
  match g with
  | [] => 0
  | r :: _ => length r
  end.

Definition isAcrossStart (g : Grid) (x y : nat) : bool :=
  ((x =? 0) || isBlock (cellAt g y (x - 1)))
  && ((x <? gridWidth g - 1) && negb (isBlock (cellAt g y (x + 1)))).

Definition isDownStart (g : Grid) (x y : nat) : bool :=
  ((y =? 0) || isBlock (cellAt g (y - 1) x))
  && ((y <? gridHeight g - 1) && negb (isBlock (cellAt g (y + 1) x))).

(** The key [`${x},${y}`] of the numbering map. *)
Definition coordKey (x y : nat) : string :=
  Js.natToString x +:+ "," +:+ Js.natToString y.

(** The loop variables that outlive an iteration. *)
Record Numbering := { cellNumber : nat; cellMap : Js.obj nat }.

Record RowAcc := {
  numbering : Numbering;
  puzzleRow : list PuzzleCell;
  solutionRow : list SolutionCell
}.

(** Body of the loop over [x]. *)
Definition scanCell (g : Grid) (y : nat) (acc : RowAcc) (x : nat) : RowAcc :=
  let cell := cellAt g y x in
  if isBlock cell then
    {| numbering := numbering acc;
       puzzleRow := puzzleRow acc ++ [Block];
       solutionRow := solutionRow acc ++ [Some "#"%char] |}
  else if isAcrossStart g x y || isDownStart g x y then
    let n := cellNumber (numbering acc) in
    {| numbering := {| cellNumber := n + 1;
                       cellMap := Js.objSet (coordKey x y) n (cellMap (numbering acc)) |};
       puzzleRow := puzzleRow acc ++ [Num n];
       solutionRow := solutionRow acc ++ [cell] |}
  else
    {| numbering := numbering acc;
       puzzleRow := puzzleRow acc ++ [Num 0];
       solutionRow := solutionRow acc ++ [cell] |}.

Record GridAcc := {
  numbered : Numbering;
  puzzleRows : list (list PuzzleCell);
  solutionRows : list (list SolutionCell)
}.

(** Body of the loop over [y]. *)
Definition scanRow (g : Grid) (acc : GridAcc) (y : nat) : GridAcc :=
  let r := fold_left (scanCell g y) (seq 0 (gridWidth g))
             {| numbering := numbered acc; puzzleRow := []; solutionRow := [] |} in
  {| numbered := numbering r;
     puzzleRows := puzzleRows acc ++ [puzzleRow r];
     solutionRows := solutionRows acc ++ [solutionRow r] |}.

Definition firstPass (g : Grid) : GridAcc :=
  fold_left (scanRow g) (seq 0 (gridHeight g))
    {| numbered := {| cellNumber := 1; cellMap := [] |};
       puzzleRows := []; solutionRows := [] |}.

(** *** Second pass: clues *)

(** [for (const [coord, number] of Object.entries(cellMap))
       if (number === clue.position) { ...; break; }]:
    the first property whose value is the position asked for. *)
Definition findNumber (cm : Js.obj nat) (pos : Z) : option (string * nat) :=
  List.find (λ e, (Z.of_nat e.2 =? pos)%Z) cm.

(** [const [col, row] = coord.split(',').map(Number)] *)
Definition parseCoord (coord : string) : option nat * option nat :=
  let parts := Js.toNumber <$> Js.split "," coord in
  (parts !! 0 ≫= id, parts !! 1 ≫= id).

(** Body of [smhClues.across.forEach] and of [smhClues.down.forEach]. *)
Definition pushRef (cm : Js.obj nat) (out : list ClueEntry) (c : ClueRef) : list ClueEntry :=
  match findNumber cm (position c) with
  | Some (coord, n) =>
      let '(cl, rw) := parseCoord coord in
      out ++ [{| number := n; clue := Js.orElse (question c) "";
                 answer := ""; row := rw; col := cl |}]
  | None => out
  end.

(** [if (Array.isArray(refs)) refs.forEach(...)] *)
Definition referenced (cm : Js.obj nat) (refs : option (list ClueRef))
    (out : list ClueEntry) : list ClueEntry :=
  match refs with
  | Some l => fold_left (pushRef cm) l out
  | None => out
  end.

(** [while (i < bound && cell(i) !== '.') { word += cell(i) || ''; i++ }],
    given the cells at [i], [i+1], ..., [bound-1]. *)
Fixpoint takeWord (cells : list (option ascii)) (word : string) : string :=
  match cells with
  | [] => word
  | c :: rest =>
      if isBlock c then word
      else takeWord rest (word +:+ match c with Some a => String a "" | None => "" end)
  end.

Definition acrossWord (g : Grid) (x y : nat) : string :=
  takeWord (cellAt g y <$> seq x (gridWidth g - x)) "".

Definition downWord (g : Grid) (x y : nat) : string :=
  takeWord ((λ wordY, cellAt g wordY x) <$> seq y (gridHeight g - y)) "".

(** [if (word.length > 1) { const cellNumber = cellMap[key];
                            if (cellNumber) list.push({...}) }].
    A key holds a comma, so it is never a property inherited from
    [Object.prototype]. *)
Definition pushWord (cm : Js.obj nat) (x y : nat) (word : string)
    (out : list ClueEntry) : list ClueEntry :=
  if 1 <? String.length word then
    match Js.objGet (coordKey x y) cm with
    | Some n =>
        if n =? 0 then out
        else out ++ [{| number := n; clue := ""; answer := word;
                        row := Some y; col := Some x |}]
    | None => out
    end
  else out.

(** Body of the inner loop of the fallback; the pair is
    [(ipuz.clues.across, ipuz.clues.down)]. *)
Definition inferCell (g : Grid) (cm : Js.obj nat) (y : nat)
    (acc : list ClueEntry * list ClueEntry) (x : nat) : list ClueEntry * list ClueEntry :=
  if isBlock (cellAt g y x) then acc
  else
    let acc1 :=
      if (x =? 0) || isBlock (cellAt g y (x - 1))
      then (pushWord cm x y (acrossWord g x y) acc.1, acc.2)
      else acc in
    if (y =? 0) || isBlock (cellAt g (y - 1) x)
    then (acc1.1, pushWord cm x y (downWord g x y) acc1.2)
    else acc1.

Definition inferRow (g : Grid) (cm : Js.obj nat)
    (acc : list ClueEntry * list ClueEntry) (y : nat) : list ClueEntry * list ClueEntry :=
  fold_left (inferCell g cm y) (seq 0 (gridWidth g)) acc.

Definition inferred (g : Grid) (cm : Js.obj nat) : list ClueEntry * list ClueEntry :=
  fold_left (inferRow g cm) (seq 0 (gridHeight g)) ([], []).

(** The clue lists before sorting. *)
Definition secondPass (gm : Game) (cm : Js.obj nat) : list ClueEntry * list ClueEntry :=
  match srcClues gm with
  | Some cs => (referenced cm (srcAcross cs) [], referenced cm (srcDown cs) [])
  | None => inferred (grid gm) cm
  end.

(** *** Output *)

(** [c => [`${c.number}`, `${c.clue || ''}`]] *)
Definition format (c : ClueEntry) : string * string :=
  (Js.natToString (number c), Js.orElse (Some (clue c)) "").

(** [s.replace(/^CROSSWORD_/, '')] *)
Fixpoint stripPrefix (p s : string) : option string :=
  match p, s with
  | EmptyString, _ => Some s
  | String a p', String b s' => if Ascii.eqb a b then stripPrefix p' s' else None
  | String _ _, EmptyString => None
  end.

Definition dropCrosswordPrefix (s : string) : string :=
  default s (stripPrefix "CROSSWORD_" s).

(** [today] is what [new Date().toISOString().split('T')[0]] reads from the
    clock; the converter looks at it only when the source has no date. *)
Definition convertSMHToIPUZ (today : string) (smhPuzzle : Puzzle) : Ipuz :=
  let g := grid (game smhPuzzle) in
  let fp := firstPass g in
  let cl := secondPass (game smhPuzzle) (cellMap (numbered fp)) in
  {| version := "http://ipuz.org/v2";
     kind := ["http://ipuz.org/crossword#1"];
     dimensions := {| width := gridWidth g; height := gridHeight g |};
     puzzle := puzzleRows fp;
     solution := solutionRows fp;
     across := format <$> Js.sortBy number cl.1;
     down := format <$> Js.sortBy number cl.2;
     title := dropCrosswordPrefix (Js.orElse (difficulty smhPuzzle) "SMH");
     author := Js.orElse (srcAuthor smhPuzzle) "";
     copyright := "SMH";
     publisher := "Sydney Morning Herald";
     date := Js.orElse (srcDate smhPuzzle) today |}.

End Smh.

(** ** The labeled-cell converter, [convertToIPUZ] of the worker script *)

Module Nyt.

(** *** Source document *)

(** A cell record: [{answer, label}], both optional. *)
Record Cell := { answer : option string; label : option string }.

Record TextVariant := { plain : string }.

(** A clue: [{direction, text, label}]; [clueLabel] is its [label]. *)
Record Clue := { direction : string; text : list TextVariant; clueLabel : string }.

Record Dimensions := { width : nat; height : nat }.

(** An element of [cells] is a record or [null]. *)
Record PuzzleData := {
  dimensions : Dimensions;
  cells : list (option Cell);
  clues : list Clue
}.

Record RootData := {
  publicationDate : string;
  constructors : option (list string);
  editor : option string;
  copyright : option string
}.

(** *** Target document *)

(** A Number whose value is an integer, as [parseInt] returns them: an
    integer that a double holds, the negative zero, an infinity or [NaN]. *)
Inductive Number := Int (z : Z) | NegZero | Infinity (negative : bool) | NotANumber.

(** A cell of the puzzle grid: ['#'] or a Number, which is what [parseInt]
    returns or the literal [0]. *)
Inductive PuzzleCell := Block | Val (v : Number).

Abbreviation Num n := (Val (Int n)).

Record Ipuz := {
  version : string;
  kind : list string;
  outCopyright : option string;
  publisher : string;
  publication : string;
  url : string;
  uniqueid : string;
  date : string;
  author : option string;
  outEditor : option string;
  outDimensions : Dimensions;
  puzzle : list (list PuzzleCell);
  solution : list (list string);
  outClues : gmap string (list (string * string))
}.

(** *** Exceptions *)

(** The two places where the function can throw, both a [TypeError]:
    reading [.plain] of [clue.text[0]] when that is [undefined], and
    calling [.push] on a value that has none. *)
Inductive Error := CannotReadPlain | PushNotAFunction.

Inductive Result (A : Type) := Ok (a : A) | Throw (e : Error).
Arguments Ok {A} a.
Arguments Throw {A} e.

Definition bind {A B} (r : Result A) (k : A → Result B) : Result B :=
  match r with
  | Ok a => k a
  | Throw e => Throw e
  end.

Notation "x ←! r ; k" := (bind r (λ x, k))
  (at level 20, r at level 100, k at level 200, right associativity).

(** [xs.forEach(x => body)] where the body updates [acc] or throws. *)
Fixpoint forEach {A S} (body : S → A → Result S) (xs : list A) (acc : S) : Result S :=
  match xs with
  | [] => Ok acc
  | x :: rest => acc' ←! body acc x; forEach body rest acc'
  end.

(** *** [parseInt] *)

(** White space that [parseInt] skips, among the first 256 code points. *)
Definition isWhiteSpace (a : ascii) : bool :=
  let n := nat_of_ascii a in
  ((9 <=? n) && (n <=? 13)) || (n =? 32) || (n =? 160).

Fixpoint skipWhiteSpace (s : string) : string :=
  match s with
  | String a rest => if isWhiteSpace a then skipWhiteSpace rest else s
  | EmptyString => s
  end.

(** The value of a digit in the given radix. *)
Definition digitValue (radix : Z) (a : ascii) : option Z :=
  let n := Z.of_nat (nat_of_ascii a) in
  let v := if (48 <=? n)%Z && (n <=? 57)%Z then Some (n - 48)%Z
           else if (97 <=? n)%Z && (n <=? 122)%Z then Some (n - 87)%Z
           else if (65 <=? n)%Z && (n <=? 90)%Z then Some (n - 55)%Z
           else None in
  v ≫= λ d, if (d <? radix)%Z then Some d else None.

(** The longest run of digits at the head of [s], read in the radix;
    [None] when the run is empty. *)
Fixpoint readDigits (radix : Z) (s : string) (acc : option Z) : option Z :=
  match s with
  | String a rest =>
      match digitValue radix a with
      | Some d => readDigits radix rest (Some (default 0%Z acc * radix + d)%Z)
      | None => acc
      end
  | EmptyString => acc
  end.

(** The first steps of [parseInt(s)] with no radix: the sign, and the
    integer that the digits after white space, sign and [0x] denote; [None]
    when there is no digit. *)
Definition readInt (s : string) : Z * option Z :=
  let s1 := skipWhiteSpace s in
  let '(sign, s2) :=
    match s1 with
    | String "-" rest => ((-1)%Z, rest)
    | String "+" rest => (1%Z, rest)
    | _ => (1%Z, s1)
    end in
  let '(radix, s3) :=
    match s2 with
    | String "0" (String "x" rest) => (16%Z, rest)
    | String "0" (String "X" rest) => (16%Z, rest)
    | _ => (10%Z, s2)
    end in
  (sign, readDigits radix s3 None).

(** The Number for the integer [z]: the double nearest to it, which has a
    significand of 53 bits; of two doubles equally near, the one with the
    even significand.  From [2^1024 - 2^970] on, the nearest is an infinity. *)
Definition toDouble (z : Z) : Number :=
  let a := Z.abs z in
  let e := (Z.log2 a - 52)%Z in
  let r :=
    if (e <=? 0)%Z then a
    else
      let q := Z.shiftr a e in
      let rest := Z.land a (Z.ones e) in
      let half := Z.shiftl 1 (e - 1) in
      let q' := if (half <? rest)%Z || ((rest =? half)%Z && Z.odd q)
                then (q + 1)%Z else q in
      Z.shiftl q' e in
  if (1024 <=? Z.log2 r)%Z then Infinity (z <? 0)%Z else Int (Z.sgn z * r).

(** [parseInt(s)] with no radix.  Without a digit the result is [NaN]; the
    integer zero keeps the sign; any other integer is rounded to a double.
    (For more than 20 decimal digits the language allows an engine to
    approximate further; the rounding here is the exact one.) *)
Definition parseInt (s : string) : Number :=
  let '(sign, digits) := readInt s in
  match digits with
  | None => NotANumber
  | Some n =>
      if (n =? 0)%Z then (if (sign <? 0)%Z then NegZero else Int 0)
      else toDouble (sign * n)
  end.

(** *** Grids *)

(** [!cell || !cell.answer] is false: the record with its answer. *)
Definition letterOf (c : option Cell) : option (Cell * string) :=
  c ≫= λ cell, if Js.truthy (answer cell) then (λ a, (cell, a)) <$> answer cell else None.

(** What the inner loop pushes on [puzzleRow] and on [solutionRow] for the
    record [cells[cellIndex]]; [None] is an index past the end. *)
Definition cellOut (c : option (option Cell)) : PuzzleCell * string :=
  match letterOf (c ≫= id) with
  | None => (Block, "#")
  | Some (cell, a) =>
      (if Js.truthy (label cell)
       then Val (parseInt (default "" (label cell)))
       else Num 0,
       a)
  end.

(** Body of the loop over [col]. *)
Definition buildCell (pd : PuzzleData) (row : nat)
    (acc : list PuzzleCell * list string) (col : nat) : list PuzzleCell * list string :=
  let cellIndex := row * width (dimensions pd) + col in
  let out := cellOut (cells pd !! cellIndex) in
  (acc.1 ++ [out.1], acc.2 ++ [out.2]).

(** Body of the loop over [row]. *)
Definition buildRow (pd : PuzzleData)
    (acc : list (list PuzzleCell) * list (list string)) (row : nat)
    : list (list PuzzleCell) * list (list string) :=
  let r := fold_left (buildCell pd row) (seq 0 (width (dimensions pd))) ([], []) in
  (acc.1 ++ [r.1], acc.2 ++ [r.2]).

Definition buildGrids (pd : PuzzleData) : list (list PuzzleCell) * list (list string) :=
  fold_left (buildRow pd) (seq 0 (height (dimensions pd))) ([], []).

(** *** Clues *)

(** The properties every object inherits from [Object.prototype]; each is
    a function or an object, so it is truthy and has no [push]. *)
Definition inheritedNames : list string :=
  ["constructor"; "hasOwnProperty"; "isPrototypeOf"; "propertyIsEnumerable";
   "toLocaleString"; "toString"; "valueOf"; "__proto__";
   "__defineGetter__"; "__defineSetter__"; "__lookupGetter__"; "__lookupSetter__"].

(** Body of [clues.forEach].  [ipuzClues] starts as [{}]; its own
    properties are the map. *)
Definition addClue (ipuzClues : gmap string (list (string * string))) (c : Clue)
    : Result (gmap string (list (string * string))) :=
  match text c with
  | [] => Throw CannotReadPlain
  | t :: _ =>
      let clueText := plain t in
      let clueNumber := clueLabel c in
      match ipuzClues !! direction c with
      | Some l => Ok (<[direction c := l ++ [(clueNumber, clueText)]]> ipuzClues)
      | None =>
          if bool_decide (direction c ∈ inheritedNames) then Throw PushNotAFunction
          else Ok (<[direction c := [(clueNumber, clueText)]]> ipuzClues)
      end
  end.

Definition buildClues (cs : list Clue) : Result (gmap string (list (string * string))) :=
  forEach addClue cs ∅.

(** *** Output *)

(** [xs.join(sep)] *)
Fixpoint join (sep : string) (xs : list string) : string :=
  match xs with
  | [] => ""
  | [x] => x
  | x :: rest => x +:+ sep +:+ join sep rest
  end.

(** [`${parts[i]}`]: a missing part prints as [undefined]. *)
Definition part (parts : list string) (i : nat) : string :=
  default "undefined" (parts !! i).

Definition convertToIPUZ (puzzleData : PuzzleData) (rootData : RootData) : Result Ipuz :=
  let grids := buildGrids puzzleData in
  ipuzClues ←! buildClues (clues puzzleData);
  let dateParts := Js.split "-" (publicationDate rootData) in
  Ok {| version := "http://ipuz.org/v2";
        kind := ["http://ipuz.org/crossword#1"];
        outCopyright := copyright rootData;
        publisher := "The New York Times";
        publication := "The Mini Crossword";
        url := "https://www.nytimes.com/crosswords/game/mini";
        uniqueid := "nyt-mini-" +:+ publicationDate rootData;
        date := part dateParts 1 +:+ "/" +:+ part dateParts 2 +:+ "/" +:+ part dateParts 0;
        author := join ", " <$> constructors rootData;
        outEditor := editor rootData;
        outDimensions := {| width := width (dimensions puzzleData);
                            height := height (dimensions puzzleData) |};
        puzzle := grids.1;
        solution := grids.2;
        outClues := ipuzClues |}.

End Nyt.

(** ** Vocabulary of the statements *)

Module Spec.

(** The cells of a [w] by [h] grid as [(x, y)], rows top to bottom and,
    within a row, columns left to right. *)
Definition rowOf (w y : nat) : list (nat * nat) := (λ x, (x, y)) <$> seq 0 w.

Definition rowMajor (w h : nat) : list (nat * nat) := concat (rowOf w <$> seq 0 h).

(** The cells scanned before [(x, y)]. *)
Definition before (w : nat) (c : nat * nat) : list (nat * nat) :=
  rowMajor w c.2 ++ rowOf c.1 c.2.

(** [c1] comes before [c2] in the scan. *)
Definition scannedBefore (c1 c2 : nat * nat) : Prop :=
  c1.2 < c2.2 ∨ (c1.2 = c2.2 ∧ c1.1 < c2.1).

(** All rows are as long as the first. *)
Definition rectangular (g : Smh.Grid) : Prop :=
  Forall (λ r, length r = Smh.gridWidth g) g.

(** The neighbour at a signed offset; [None] beyond the edge. *)
Definition cellAtZ (g : Smh.Grid) (x y : Z) : option ascii :=
  if ((x <? 0) || (y <? 0))%Z then None else Smh.cellAt g (Z.to_nat y) (Z.to_nat x).

Definition isLetter (c : option ascii) : bool :=
  match c with
  | Some a => negb (Ascii.eqb a ".")
  | None => false
  end.

Definition absentOrBlock (c : option ascii) : bool :=
  match c with
  | Some a => Ascii.eqb a "."
  | None => true
  end.

(** The start predicates in the words of the specification: a letter cell
    whose left (upper) neighbour is absent or a block and whose right
    (lower) neighbour exists and is a letter. *)
Definition startsAcross (g : Smh.Grid) (x y : nat) : bool :=
  isLetter (Smh.cellAt g y x)
  && absentOrBlock (cellAtZ g (Z.of_nat x - 1) (Z.of_nat y))
  && isLetter (cellAtZ g (Z.of_nat x + 1) (Z.of_nat y)).

Definition startsDown (g : Smh.Grid) (x y : nat) : bool :=
  isLetter (Smh.cellAt g y x)
  && absentOrBlock (cellAtZ g (Z.of_nat x) (Z.of_nat y - 1))
  && isLetter (cellAtZ g (Z.of_nat x) (Z.of_nat y + 1)).

Definition startsEntry (g : Smh.Grid) (c : nat * nat) : bool :=
  startsAcross g c.1 c.2 || startsDown g c.1 c.2.

(** The neighbour at a signed offset is a block, or lies beyond an edge of
    the [gridWidth] by [gridHeight] box. *)
Definition blockOrEdge (g : Smh.Grid) (x y : Z) : bool :=
  (x <? 0)%Z || (y <? 0)%Z
  || (Z.of_nat (Smh.gridWidth g) <=? x)%Z || (Z.of_nat (Smh.gridHeight g) <=? y)%Z
  || Smh.isBlock (cellAtZ g x y).

(** A cell whose four neighbours are blocks or edges. *)
Definition isolated (g : Smh.Grid) (x y : nat) : bool :=
  blockOrEdge g (Z.of_nat x - 1) (Z.of_nat y)
  && blockOrEdge g (Z.of_nat x + 1) (Z.of_nat y)
  && blockOrEdge g (Z.of_nat x) (Z.of_nat y - 1)
  && blockOrEdge g (Z.of_nat x) (Z.of_nat y + 1).

(** The decision the first pass takes at a cell. *)
Definition numberedCell (g : Smh.Grid) (c : nat * nat) : bool :=
  negb (Smh.isBlock (Smh.cellAt g c.2 c.1))
  && (Smh.isAcrossStart g c.1 c.2 || Smh.isDownStart g c.1 c.2).

(** The number of a numbered cell: one more than the count of numbered
    cells scanned before it. *)
Definition numberAt (g : Smh.Grid) (c : nat * nat) : nat :=
  1 + length (List.filter (numberedCell g) (before (Smh.gridWidth g) c)).

Definition puzzleCellAt (g : Smh.Grid) (c : nat * nat) : Smh.PuzzleCell :=
  if Smh.isBlock (Smh.cellAt g c.2 c.1) then Smh.Block
  else if numberedCell g c then Smh.Num (numberAt g c)
  else Smh.Num 0.

Definition solutionCellAt (g : Smh.Grid) (c : nat * nat) : Smh.SolutionCell :=
  if Smh.isBlock (Smh.cellAt g c.2 c.1) then Some "#"%char else Smh.cellAt g c.2 c.1.

(** Consecutive numbers from [n0] for the members of [cs] that satisfy [p]. *)
Definition assign {A} (p : A → bool) (n0 : nat) (cs : list A) : list (A * nat) :=
  zip (List.filter p cs) (seq n0 (length (List.filter p cs))).

Definition keyed (e : nat * nat * nat) : string * nat := (Smh.coordKey e.1.1 e.1.2, e.2).

(** The numbering map has a coordinate for the number [pos]. *)
Definition hasNumber (cm : Js.obj nat) (pos : Z) : bool :=
  existsb (λ e, (Z.of_nat e.2 =? pos)%Z) cm.

(** Number and text of an assembled entry, and of a clue reference. *)
Definition entryPair (e : Smh.ClueEntry) : Z * string :=
  (Z.of_nat (Smh.number e), Smh.clue e).

Definition refPair (c : Smh.ClueRef) : Z * string :=
  (Smh.position c, Js.orElse (Smh.question c) "").

(** The numbers at the head of emitted clue pairs, read back from their
    strings, exist and never decrease. *)
Definition ascending (l : list (string * string)) : Prop :=
  ∃ ns, (Js.toNumber ∘ fst) <$> l = Some <$> ns ∧ StronglySorted le ns.

(** A sequence ordered by [key], as [StronglySorted] states it. *)
Definition sortedBy {A} (key : A → nat) (l : list A) : Prop :=
  StronglySorted (λ a b, key a ≤ key b) l.

(** [l'] holds the members of [l], and those of equal key in the order they
    have in [l]. *)
Definition stableFor {A} (key : A → nat) (l l' : list A) : Prop :=
  ∀ n, List.filter (λ a, key a =? n) l' = List.filter (λ a, key a =? n) l.

(** The pair a labeled-source clue is projected to: its label and the
    plain text of its first text variant. *)
Definition cluePair (c : Nyt.Clue) : string * string :=
  (Nyt.clueLabel c, default "" (Nyt.plain <$> head (Nyt.text c))).

(** The clues of one direction, in source order. *)
Definition inDirection (d : string) (cs : list Nyt.Clue) : list Nyt.Clue :=
  List.filter (λ c, String.eqb (Nyt.direction c) d) cs.

(** A clue the loop accepts: it has a text variant, and its direction does
    not name a property inherited from [Object.prototype]. *)
Definition acceptable (c : Nyt.Clue) : Prop :=
  Nyt.text c ≠ [] ∧ Nyt.direction c ∉ Nyt.inheritedNames.

(** Width and height agree with the number of cell records. *)
Definition consistent (pd : Nyt.PuzzleData) : Prop :=
  Nyt.width (Nyt.dimensions pd) * Nyt.height (Nyt.dimensions pd) = length (Nyt.cells pd).

End Spec.

(** ** Sample documents *)

Module Examples.

Definition smhPuzzleOf (rows : list string) (cs : option Smh.Clues) (d : option string)
    : Smh.Puzzle :=
  {| Smh.game := {| Smh.grid := list_ascii_of_string <$> rows; Smh.srcClues := cs |};
     Smh.difficulty := Some "CROSSWORD_QUICK";
     Smh.srcAuthor := None;
     Smh.srcDate := d |}.

(** The grid of the scenario in the specification, as written there. *)
Definition catHash : Smh.Puzzle := smhPuzzleOf ["CAT"; "#A#"; "#T#"] None None.

(** The same grid with the block marker of the source format. *)
Definition catDot : Smh.Puzzle := smhPuzzleOf ["CAT"; ".A."; ".T."] None None.

(** Clue references for [catDot]; no cell has the number 7. *)
Definition catClues : Smh.Clues :=
  {| Smh.srcAcross := Some [ {| Smh.position := 2; Smh.question := Some "second" |};
                             {| Smh.position := 7; Smh.question := Some "stale" |};
                             {| Smh.position := 1; Smh.question := None |} ];
     Smh.srcDown := None |}.

Definition catRefs : Smh.Puzzle :=
  smhPuzzleOf ["CAT"; ".A."; ".T."] (Some catClues) (Some "2025-10-08").

(** A single letter. *)
Definition oneLetter : Smh.Puzzle := smhPuzzleOf ["A"] None None.

(** Labeled-cell documents. *)
Definition nytRoot : Nyt.RootData :=
  {| Nyt.publicationDate := "2025-10-08";
     Nyt.constructors := Some ["A. Setter"];
     Nyt.editor := None;
     Nyt.copyright := Some "2025" |}.

Definition nytDocOf (w h : nat) (cs : list (option Nyt.Cell)) (cl : list Nyt.Clue)
    : Nyt.PuzzleData :=
  {| Nyt.dimensions := {| Nyt.width := w; Nyt.height := h |};
     Nyt.cells := cs;
     Nyt.clues := cl |}.

Definition nytClue (d l : string) (texts : list string) : Nyt.Clue :=
  {| Nyt.direction := d;
     Nyt.text := (λ t, {| Nyt.plain := t |}) <$> texts;
     Nyt.clueLabel := l |}.

(** The cells of the scenario in the specification. *)
Definition labeledCells : list (option Nyt.Cell) :=
  [ Some {| Nyt.answer := Some "A"; Nyt.label := Some "1" |};
    Some {| Nyt.answer := Some "B"; Nyt.label := None |};
    None;
    Some {| Nyt.answer := Some "C"; Nyt.label := Some "2" |} ].

Definition labeled : Nyt.PuzzleData := nytDocOf 2 2 labeledCells [].

(** Two by two, and no cell record at all. *)
Definition shortDoc : Nyt.PuzzleData := nytDocOf 2 2 [] [].

(** As many records as cells, and a clue without text. *)
Definition blankClueDoc : Nyt.PuzzleData :=
  nytDocOf 2 2 labeledCells [nytClue "Across" "1" []].

(** Clues out of numeric order. *)
Definition unsortedDoc : Nyt.PuzzleData :=
  nytDocOf 2 2 labeledCells
    [nytClue "Across" "2" ["second"]; nytClue "Down" "1" ["down"; "other"];
     nytClue "Across" "1" ["first"]].

End Examples.

(** ** The worker script around the converters *)

Module Worker.

(** *** [listAllFiles] *)

(** An object of the bucket as [list] reports it; [etag] stands for the
    fields the function does not copy. *)
Record R2Object := {
  key : string;
  size : nat;
  uploaded : string;
  customMetadata : option (list (string * string));
  etag : string
}.

(** What [env.CROSSWORD_BUCKET.list({ cursor })] resolves to. *)
Record Listing := {
  objects : list R2Object;
  truncated : bool;
  cursor : option string
}.

(** The bucket, as the answer it gives to [list] for each cursor;
    [None] is the [undefined] of the first call. *)
Definition Bucket := option string → Listing.

Record FileInfo := {
  fileKey : string;
  fileSize : nat;
  fileUploaded : string;
  fileMetadata : option (list (string * string))
}.

(** [obj => ({ key, size, uploaded, customMetadata })] *)
Definition fileInfo (obj : R2Object) : FileInfo :=
  {| fileKey := key obj; fileSize := size obj;
     fileUploaded := uploaded obj; fileMetadata := customMetadata obj |}.

(** The [do ... while (cursor)] loop; [fuel] bounds the number of calls of
    [list], and [None] says that the loop is still running when the fuel
    is spent. *)
Fixpoint listLoop (fuel : nat) (bucket : Bucket) (cur : option string)
    (files : list FileInfo) : option (list FileInfo) :=
  match fuel with
  | 0 => None
  | S fuel' =>
      let listed := bucket cur in
      let files' := files ++ (fileInfo <$> objects listed) in
      let cur' := if truncated listed then cursor listed else None in
      if Js.truthy cur' then listLoop fuel' bucket cur' files' else Some files'
  end.

Definition listAllFiles (fuel : nat) (bucket : Bucket) : option (list FileInfo) :=
  listLoop fuel bucket None [].

(** *** File names of [handleConvert] *)

(** [toLowerCase] on one character, among the first 256 code points. *)
Definition lowerChar (a : ascii) : ascii :=
  let n := nat_of_ascii a in
  if ((65 <=? n) && (n <=? 90))
     || ((192 <=? n) && (n <=? 222) && negb (n =? 215))
  then ascii_of_nat (n + 32) else a.

Fixpoint toLowerCase (s : string) : string :=
  match s with
  | EmptyString => EmptyString
  | String a rest => String (lowerChar a) (toLowerCase rest)
  end.

(** [(puzzle, index) => { ...; return `smh-${puzzleType}-${date}.ipuz` }],
    for the source puzzle kept as [originalData]. *)
Definition smhFilename (today : string) (original : Smh.Puzzle) (index : nat) : string :=
  let puzzleType := Js.orElse (toLowerCase <$> Smh.difficulty original)
                      ("puzzle-" +:+ Js.natToString (index + 1)) in
  let date := Js.orElse (Smh.srcDate original) today in
  "smh-" +:+ puzzleType +:+ "-" +:+ date +:+ ".ipuz".

(** [`nyt-mini-${publicationDate}.ipuz`] *)
Definition nytFilename (publicationDate : string) : string :=
  "nyt-mini-" +:+ publicationDate +:+ ".ipuz".

(** *** The puzzles behind the home page *)

Record PuzzleType := { id : string; name : string }.

Definition puzzleTypes : list PuzzleType :=
  [ {| id := "nyt-mini"; name := "NYT Mini" |};
    {| id := "smh-crossword_mini"; name := "SMH Mini" |};
    {| id := "smh-crossword_quick"; name := "SMH Quick" |};
    {| id := "smh-crossword_cryptic"; name := "SMH Cryptic" |} ].

Record PuzzleInfo := {
  infoKey : string;
  infoType : string;
  typeName : string;
  date : string;
  year : string;
  month : string;
  day : string;
  url : string;
  infoUploaded : string
}.

(** [\d] *)
Definition isDigit (a : ascii) : bool :=
  let n := nat_of_ascii a in (48 <=? n) && (n <=? 57).

(** [-(\d{4})-(\d{2})-(\d{2})\.ipuz] at the head of a string: the three
    groups. *)
Definition matchTail (s : string) : option (string * string * string) :=
  match s with
  | String c0 (String y1 (String y2 (String y3 (String y4 (String c5
      (String m1 (String m2 (String c8 (String d1 (String d2 (String c11
      (String c12 (String c13 (String c14 (String c15 _))))))))))))))) =>
      if Ascii.eqb c0 "-" && isDigit y1 && isDigit y2 && isDigit y3 && isDigit y4
         && Ascii.eqb c5 "-" && isDigit m1 && isDigit m2
         && Ascii.eqb c8 "-" && isDigit d1 && isDigit d2
         && Ascii.eqb c11 "." && Ascii.eqb c12 "i" && Ascii.eqb c13 "p"
         && Ascii.eqb c14 "u" && Ascii.eqb c15 "z"
      then Some (String y1 (String y2 (String y3 (String y4 ""))),
                 String m1 (String m2 ""), String d1 (String d2 ""))
      else None
  | _ => None
  end.

(** The whole pattern [([^-]+)-(\d{4})-(\d{2})-(\d{2})\.ipuz] at the head of
    a string.  The first group is greedy: it takes a further character
    when the rest then matches, and stops otherwise. *)
Fixpoint matchAt (s : string) : option (string * string * string) :=
  match s with
  | EmptyString => None
  | String a rest =>
      if Ascii.eqb a "-" then None
      else match matchAt rest with
           | Some r => Some r
           | None => matchTail rest
           end
  end.

(** [key.match(/([^-]+)-(\d{4})-(\d{2})-(\d{2})\.ipuz/)]: the match that
    starts leftmost; of its groups the year, the month and the day. *)
Fixpoint matchKey (s : string) : option (string * string * string) :=
  match matchAt s with
  | Some r => Some r
  | None =>
      match s with
      | EmptyString => None
      | String _ rest => matchKey rest
      end
  end.

(** The body of [.map(f => ...)]; [None] is its [null]. *)
Definition puzzleInfo (bucketUrl : string) (type : PuzzleType) (f : FileInfo)
    : option PuzzleInfo :=
  match matchKey (fileKey f) with
  | Some (y, m, d) =>
      Some {| infoKey := fileKey f;
              infoType := id type;
              typeName := name type;
              date := y +:+ "-" +:+ m +:+ "-" +:+ d;
              year := y; month := m; day := d;
              url := bucketUrl +:+ "/" +:+ fileKey f;
              infoUploaded := fileUploaded f |}
  | None => None
  end.

(** [a.localeCompare(b)] on two dates of the shape [dddd-dd-dd], where the
    order of the digits decides: negative, zero or positive. *)
Definition localeCompare (a b : string) : Z :=
  match String.compare a b with
  | Lt => (-1)%Z
  | Eq => 0%Z
  | Gt => 1%Z
  end.

(** [xs.sort(cmp)], stable, by insertion from the right. *)
Section SortWith.
Context {A : Type} (cmp : A → A → Z).

Fixpoint insertWith (a : A) (l : list A) : list A :=
  match l with
  | [] => [a]
  | b :: rest => if (cmp a b <=? 0)%Z then a :: b :: rest else b :: insertWith a rest
  end.

Definition sortWith (l : list A) : list A := foldr insertWith [] l.
End SortWith.

(** [files.filter(...).map(...).filter(p => p !== null).sort(...)] *)
Definition typePuzzles (bucketUrl : string) (type : PuzzleType) (files : list FileInfo)
    : list PuzzleInfo :=
  sortWith (λ a b, localeCompare (date b) (date a))
    (omap (puzzleInfo bucketUrl type)
       (List.filter (λ f, String.prefix (id type +:+ "-") (fileKey f)) files)).

(** Body of [typePuzzles.forEach]: [byYear] is an object of objects; its
    keys are years and months made of digits, which name no inherited
    property. *)
Definition groupPuzzle (byYear : gmap string (gmap string (list PuzzleInfo)))
    (p : PuzzleInfo) : gmap string (gmap string (list PuzzleInfo)) :=
  let months := default ∅ (byYear !! year p) in
  let puzzles := default [] (months !! month p) in
  <[year p := <[month p := puzzles ++ [p]]> months]> byYear.

Record TypeData := {
  dataName : string;
  latest : option PuzzleInfo;
  byYear : gmap string (gmap string (list PuzzleInfo));
  all : list PuzzleInfo
}.

(** Body of the loop over [puzzleTypes]: the value of
    [puzzlesByType[type.id]]. *)
Definition typeData (bucketUrl : string) (files : list FileInfo) (type : PuzzleType)
    : TypeData :=
  let ps := typePuzzles bucketUrl type files in
  {| dataName := name type;
     latest := head ps;
     byYear := fold_left groupPuzzle ps ∅;
     all := ps |}.

End Worker.

(** ** Further vocabulary *)

Module Terms.

(** The number a puzzle cell shows, when it shows one. *)
Definition shownNumber (c : Smh.PuzzleCell) : option nat :=
  match c with
  | Smh.Num (S n) => Some (S n)
  | _ => None
  end.

(** Every cell inside the grid is a block. *)
Definition allBlocks (g : Smh.Grid) : Prop :=
  ∀ x y, x < Smh.gridWidth g → y < Smh.gridHeight g →
    Smh.isBlock (Smh.cellAt g y x) = true.

(** No cell of the grid is the character ['#']. *)
Definition noHash (g : Smh.Grid) : Prop :=
  Forall (Forall (λ a, a ≠ "#"%char)) g.

(** Reading a solution cell back: ['#'] stands for the block marker. *)
Definition restoreCell (c : Smh.SolutionCell) : option ascii :=
  match c with
  | Some a => if Ascii.eqb a "#" then Some "."%char else Some a
  | None => None
  end.

(** The cells of a sequence up to the first block marker. *)
Fixpoint letterRun (cells : list ascii) : list ascii :=
  match cells with
  | [] => []
  | a :: rest => if Ascii.eqb a "." then [] else a :: letterRun rest
  end.

(** Column [x] of a grid, top to bottom. *)
Definition column (g : Smh.Grid) (x : nat) : list ascii := omap (.!! x) g.

(** The entry the fallback makes for a word starting at [c]. *)
Definition wordEntry (n : nat) (word : list ascii) (c : nat * nat) : Smh.ClueEntry :=
  {| Smh.number := n; Smh.clue := ""; Smh.answer := string_of_list_ascii word;
     Smh.row := Some c.2; Smh.col := Some c.1 |}.

(** The number the numbering map holds for a cell, 0 when it holds none. *)
Definition mapNumber (cm : Js.obj nat) (c : nat * nat) : nat :=
  default 0 (Js.objGet (Smh.coordKey c.1 c.2) cm).

(** What the fallback pushes on the across list, and on the down list,
    when its loops reach the cell [c]. *)
Definition acrossAt (g : Smh.Grid) (cm : Js.obj nat) (c : nat * nat) : list Smh.ClueEntry :=
  if Smh.isBlock (Smh.cellAt g c.2 c.1) then []
  else if (c.1 =? 0) || Smh.isBlock (Smh.cellAt g c.2 (c.1 - 1))
  then Smh.pushWord cm c.1 c.2 (Smh.acrossWord g c.1 c.2) []
  else [].

Definition downAt (g : Smh.Grid) (cm : Js.obj nat) (c : nat * nat) : list Smh.ClueEntry :=
  if Smh.isBlock (Smh.cellAt g c.2 c.1) then []
  else if (c.2 =? 0) || Smh.isBlock (Smh.cellAt g (c.2 - 1) c.1)
  then Smh.pushWord cm c.1 c.2 (Smh.downWord g c.1 c.2) []
  else [].

(** The cells that start an across word, and a down word, in scan order. *)
Definition acrossStarts (g : Smh.Grid) : list (nat * nat) :=
  List.filter (λ c, Spec.startsAcross g c.1 c.2)
    (Spec.rowMajor (Smh.gridWidth g) (Smh.gridHeight g)).

Definition downStarts (g : Smh.Grid) : list (nat * nat) :=
  List.filter (λ c, Spec.startsDown g c.1 c.2)
    (Spec.rowMajor (Smh.gridWidth g) (Smh.gridHeight g)).

(** The letters from a cell to the end of its row, and to the foot of its
    column. *)
Definition restOfRow (g : Smh.Grid) (c : nat * nat) : list ascii :=
  drop c.1 (default [] (g !! c.2)).

Definition restOfColumn (g : Smh.Grid) (c : nat * nat) : list ascii :=
  drop c.2 (column g c.1).

(** The string does not hold the character. *)
Fixpoint lacks (c : ascii) (s : string) : bool :=
  match s with
  | EmptyString => true
  | String a rest => negb (Ascii.eqb a c) && lacks c rest
  end.

(** Every character of the string is a decimal digit. *)
Fixpoint allDigits (s : string) : bool :=
  match s with
  | EmptyString => true
  | String a rest => Worker.isDigit a && allDigits rest
  end.

(** The string is not empty and its last character is not [c]. *)
Fixpoint lastIsNot (c : ascii) (s : string) : bool :=
  match s with
  | EmptyString => false
  | String a EmptyString => negb (Ascii.eqb a c)
  | String _ rest => lastIsNot c rest
  end.

(** The first [n] characters of the string, or all of a shorter string, are
    not [c]. *)
Fixpoint prefixLacks (n : nat) (c : ascii) (s : string) : bool :=
  match n, s with
  | S n', String a rest => negb (Ascii.eqb a c) && prefixLacks n' c rest
  | _, _ => true
  end.

(** A date [y-m-d] of four, two and two digits. *)
Definition isoDate (y m d : string) : Prop :=
  (String.length y = 4 ∧ allDigits y = true)
  ∧ (String.length m = 2 ∧ allDigits m = true)
  ∧ (String.length d = 2 ∧ allDigits d = true).

(** The name [`${stem}-${y}-${m}-${d}.ipuz`]. *)
Definition datedKey (stem y m d : string) : string :=
  stem +:+ "-" +:+ y +:+ "-" +:+ m +:+ "-" +:+ d +:+ ".ipuz".

(** The date [`${y}-${m}-${d}`]. *)
Definition dashed (y m d : string) : string := y +:+ "-" +:+ m +:+ "-" +:+ d.

(** The entry of the home page for a stored file whose name gives the date
    [y-m-d]. *)
Definition entryOf (bucketUrl : string) (type : Worker.PuzzleType) (f : Worker.FileInfo)
    (y m d : string) : Worker.PuzzleInfo :=
  {| Worker.infoKey := Worker.fileKey f;
     Worker.infoType := Worker.id type;
     Worker.typeName := Worker.name type;
     Worker.date := dashed y m d;
     Worker.year := y; Worker.month := m; Worker.day := d;
     Worker.url := bucketUrl +:+ "/" +:+ Worker.fileKey f;
     Worker.infoUploaded := Worker.fileUploaded f |}.

(** A list of entries runs from the newest date to the oldest. *)
Definition newestFirst (ps : list Worker.PuzzleInfo) : Prop :=
  StronglySorted (λ p q, String.le (Worker.date q) (Worker.date p)) ps.

(** The non-empty list, or nothing. *)
Definition nonEmpty {A} (l : list A) : option (list A) :=
  match l with
  | [] => None
  | _ => Some l
  end.

(** The listings a bucket gives when each call of [list] is made with the
    cursor of the listing before: the chain ends at the first listing that
    is not truncated or has no cursor. *)
Inductive Pages (bucket : Worker.Bucket) : option string → list Worker.Listing → Prop :=
  | pages_last cur :
      Js.truthy (if Worker.truncated (bucket cur)
                 then Worker.cursor (bucket cur) else None) = false →
      Pages bucket cur [bucket cur]
  | pages_more cur rest :
      Worker.truncated (bucket cur) = true →
      Js.truthy (Worker.cursor (bucket cur)) = true →
      Pages bucket (Worker.cursor (bucket cur)) rest →
      Pages bucket cur (bucket cur :: rest).

End Terms.

(** ** Further sample documents *)

Module Samples.

(** Two rows of two blocks. *)
Definition blocksOnly : Smh.Puzzle := Examples.smhPuzzleOf [".."; ".."] None None.

(** A difficulty that repeats the prefix. *)
Definition doubledPrefix : Smh.Puzzle :=
  {| Smh.game := {| Smh.grid := []; Smh.srcClues := None |};
     Smh.difficulty := Some "CROSSWORD_CROSSWORD_MINI";
     Smh.srcAuthor := None;
     Smh.srcDate := None |}.

(** The labeled cells followed by a fifth record. *)
Definition labeledAndMore : Nyt.PuzzleData :=
  Examples.nytDocOf 2 2
    (Examples.labeledCells ++ [Some {| Nyt.answer := Some "Z"; Nyt.label := Some "9" |}]) [].

(** A bucket of two pages, and one that never stops handing out cursors. *)
Definition fileObject (k : string) : Worker.R2Object :=
  {| Worker.key := k; Worker.size := 1; Worker.uploaded := "2025-10-08T06:00:00Z";
     Worker.customMetadata := None; Worker.etag := "e" |}.

Definition twoPages : Worker.Bucket :=
  λ cur, match cur with
         | None => {| Worker.objects := [fileObject "nyt-mini-2025-10-08.ipuz";
                                         fileObject "notes.txt"];
                      Worker.truncated := true; Worker.cursor := Some "next" |}
         | Some _ => {| Worker.objects := [fileObject "smh-crossword_mini-2025-10-09.ipuz";
                                           fileObject "nyt-mini-2025-11-01.ipuz"];
                        Worker.truncated := false; Worker.cursor := None |}
         end.

Definition endless : Worker.Bucket :=
  λ _, {| Worker.objects := []; Worker.truncated := true; Worker.cursor := Some "again" |}.

(** The files of a bucket, one of them under a fall-back name, and a source
    puzzle that names no difficulty. *)
Definition files : list Worker.FileInfo :=
  Worker.fileInfo ∘ fileObject <$>
    [ "nyt-mini-2025-10-08.ipuz"; "notes.txt"; "smh-puzzle-1-2025-10-08.ipuz";
      "smh-crossword_quick-2025-10-08.ipuz"; "nyt-mini-2025-11-01.ipuz";
      "smh-crossword_quick-2025-10-09.ipuz"; "nyt-mini-2024-12-31.ipuz" ].

Definition unrated : Smh.Puzzle :=
  {| Smh.game := {| Smh.grid := [["A"%char]]; Smh.srcClues := None |};
     Smh.difficulty := None;
     Smh.srcAuthor := None;
     Smh.srcDate := Some "2025-10-08" |}.

End Samples.

(** * Properties *)

(** ** Keys of the numbering map *)

Section JsFacts.
Import Js.

Lemma digits_no_comma d s1 s2 :
  NilEmpty.string_of_uint d ≠ s1 +:+ String "," s2.
Proof.
  revert s1. induction d; intros s1 H; simpl in H;
    destruct s1 as [|a s1]; simpl in H; try discriminate;
    injection H as _ H; by eapply IHd.
Qed.

Lemma natToString_no_comma n s1 s2 : natToString n ≠ s1 +:+ String "," s2.
Proof.
  unfold natToString, NilZero.string_of_uint.
  destruct (Nat.to_uint n) eqn:E; try apply digits_no_comma.
  destruct s1 as [|a [|b s1]]; simpl; intros H; discriminate H.
Qed.

Lemma toNumber_natToString n : toNumber (natToString n) = Some n.
Proof.
  unfold toNumber, natToString, NilZero.string_of_uint.
  pose proof (Unsigned.of_to n) as Hn.
  destruct (Nat.to_uint n) eqn:E; try (rewrite NilEmpty.usu; simpl; by rewrite Hn).
  simpl in *. by rewrite <- Hn.
Qed.

Lemma natToString_inj n m : natToString n = natToString m → n = m.
Proof.
  intros H. apply (f_equal toNumber) in H.
  rewrite !toNumber_natToString in H. congruence.
Qed.

Lemma string_app_cons a (s t : string) : String a s +:+ t = String a (s +:+ t).
Proof. reflexivity. Qed.

Lemma string_app_assoc (a b c : string) : (a +:+ b) +:+ c = a +:+ (b +:+ c).
Proof. induction a as [|x a IH]; [done|]. by rewrite !string_app_cons, IH. Qed.

Lemma string_app_nil_r (a : string) : a +:+ "" = a.
Proof. induction a as [|x a IH]; [done|]. by rewrite string_app_cons, IH. Qed.

Lemma splitAux_no_sep c s cur :
  (∀ s1 s2, s ≠ s1 +:+ String c s2) → splitAux c s cur = [cur +:+ s].
Proof.
  revert cur. induction s as [|a s IH]; intros cur H; simpl.
  - by rewrite string_app_nil_r.
  - destruct (Ascii.eqb_spec a c) as [->|Hne].
    + by destruct (H "" s).
    + rewrite IH, string_app_assoc; [done|].
      intros s1 s2 ->. by apply (H (String a s1) s2).
Qed.

Lemma splitAux_app c s t cur :
  (∀ s1 s2, s ≠ s1 +:+ String c s2) →
  splitAux c (s +:+ String c t) cur = (cur +:+ s) :: splitAux c t "".
Proof.
  revert cur. induction s as [|a s IH]; intros cur H; simpl.
  - by rewrite Ascii.eqb_refl, string_app_nil_r.
  - destruct (Ascii.eqb_spec a c) as [->|Hne].
    + by destruct (H "" s).
    + rewrite IH, string_app_assoc; [done|].
      intros s1 s2 ->. by apply (H (String a s1) s2).
Qed.

Lemma parseCoord_coordKey x y : Smh.parseCoord (Smh.coordKey x y) = (Some x, Some y).
Proof.
  unfold Smh.parseCoord, split.
  change (Smh.coordKey x y) with (natToString x +:+ String "," (natToString y)).
  rewrite splitAux_app by apply natToString_no_comma.
  rewrite splitAux_no_sep by apply natToString_no_comma.
  change ("" +:+ natToString x) with (natToString x).
  change ("" +:+ natToString y) with (natToString y).
  rewrite !fmap_cons, !toNumber_natToString. done.
Qed.

Lemma coordKey_inj x y x' y' : Smh.coordKey x y = Smh.coordKey x' y' → x = x' ∧ y = y'.
Proof.
  intros H. apply (f_equal Smh.parseCoord) in H.
  rewrite !parseCoord_coordKey in H. by simplify_eq.
Qed.
End JsFacts.

(** ** Objects as property lists *)

Section ObjFacts.
Import Js.
Context {V : Type}.
Implicit Types (o : obj V) (k : string) (v : V).

Lemma objSet_fresh k v o : k ∉ o.*1 → objSet k v o = o ++ [(k, v)].
Proof.
  induction o as [|[k' v'] o IH]; intros Hk; simpl; [done|].
  rewrite fmap_cons, not_elem_of_cons in Hk. destruct Hk as [Hne Hk].
  destruct (String.eqb_spec k k'); [done|]. by rewrite IH.
Qed.

Lemma objGet_app_l k o1 o2 : k ∈ o1.*1 → objGet k (o1 ++ o2) = objGet k o1.
Proof.
  induction o1 as [|[k' v'] o1 IH]; simpl; intros Hk.
  - by apply elem_of_nil in Hk.
  - destruct (String.eqb_spec k k'); [done|].
    apply IH. apply elem_of_cons in Hk as [?|?]; done.
Qed.

Lemma objGet_app_r k o1 o2 : k ∉ o1.*1 → objGet k (o1 ++ o2) = objGet k o2.
Proof.
  induction o1 as [|[k' v'] o1 IH]; simpl; intros Hk; [done|].
  rewrite not_elem_of_cons in Hk. destruct Hk as [Hne Hk].
  destruct (String.eqb_spec k k'); [done|]. by apply IH.
Qed.

Lemma objGet_None k o : k ∉ o.*1 → objGet k o = None.
Proof.
  induction o as [|[k' v'] o IH]; simpl; intros Hk; [done|].
  rewrite not_elem_of_cons in Hk. destruct Hk as [Hne Hk].
  destruct (String.eqb_spec k k'); [done|]. by apply IH.
Qed.
End ObjFacts.

(** ** Consecutive numbering of a scan *)

Section AssignFacts.
Import Spec.
Context {A : Type} (p : A → bool).

Lemma assign_nil n0 : assign p n0 [] = [].
Proof. done. Qed.

Lemma assign_app n0 (l1 l2 : list A) :
  assign p n0 (l1 ++ l2)
  = assign p n0 l1 ++ assign p (n0 + length (List.filter p l1)) l2.
Proof.
  unfold assign. rewrite List.filter_app, length_app, seq_app.
  rewrite zip_with_app; [done|]. by rewrite length_seq.
Qed.

Lemma assign_one n0 (a : A) :
  assign p n0 [a] = if p a then [(a, n0)] else [].
Proof. unfold assign. simpl. by destruct (p a). Qed.

Lemma assign_fst n0 (l : list A) : (assign p n0 l).*1 = List.filter p l.
Proof. unfold assign. apply fst_zip. by rewrite length_seq. Qed.

Lemma assign_snd n0 (l : list A) : (assign p n0 l).*2 = seq n0 (length (List.filter p l)).
Proof. unfold assign. apply snd_zip. by rewrite length_seq. Qed.
End AssignFacts.

(** ** The scan order *)

Section ScanOrder.
Import Spec.

Lemma rowOf_S w y : rowOf (S w) y = rowOf w y ++ [(w, y)].
Proof. unfold rowOf. by rewrite seq_S, fmap_app. Qed.

Lemma rowMajor_S w h : rowMajor w (S h) = rowMajor w h ++ rowOf w h.
Proof.
  unfold rowMajor. rewrite seq_S, fmap_app, concat_app. simpl.
  by rewrite app_nil_r.
Qed.

Lemma elem_of_rowOf w y c : c ∈ rowOf w y ↔ c.1 < w ∧ c.2 = y.
Proof.
  unfold rowOf. rewrite list_elem_of_fmap. split.
  - intros (x & -> & Hx). apply elem_of_seq in Hx. simpl. lia.
  - intros [Hx <-]. exists c.1. split; [by destruct c|]. apply elem_of_seq. lia.
Qed.

Lemma elem_of_rowMajor w h c : c ∈ rowMajor w h ↔ c.1 < w ∧ c.2 < h.
Proof.
  induction h as [|h IH].
  - unfold rowMajor. simpl. rewrite elem_of_nil. lia.
  - rewrite rowMajor_S, elem_of_app, IH, elem_of_rowOf. lia.
Qed.

Lemma elem_of_before w c c' :
  c.1 ≤ w → c' ∈ before w c → c'.1 < w ∧ scannedBefore c' c.
Proof.
  unfold before, scannedBefore.
  rewrite elem_of_app, elem_of_rowMajor, elem_of_rowOf. lia.
Qed.

Lemma rowOf_split w x y :
  x < w → rowOf w y = rowOf x y ++ (x, y) :: ((λ x', (x', y)) <$> seq (S x) (w - S x)).
Proof.
  intros Hx. unfold rowOf.
  replace w with (x + S (w - S x)) at 1 by lia.
  by rewrite seq_app, fmap_app.
Qed.

Lemma rowMajor_split w h y :
  y < h → ∃ rest, rowMajor w h = rowMajor w y ++ rowOf w y ++ rest.
Proof.
  intros Hy. unfold rowMajor.
  replace h with (y + S (h - S y)) by lia.
  rewrite seq_app, fmap_app, concat_app. simpl. eauto.
Qed.

(** The scan up to a later cell extends the scan up to an earlier one. *)
Lemma before_extends w c1 c2 :
  c1.1 < w → c2.1 ≤ w → scannedBefore c1 c2 →
  ∃ rest, before w c2 = before w c1 ++ c1 :: rest.
Proof.
  destruct c1 as [x1 y1], c2 as [x2 y2]. unfold scannedBefore, before. simpl.
  intros Hx1 Hx2 [Hy|[-> Hx]].
  - destruct (rowMajor_split w y2 y1 Hy) as [rest ->].
    rewrite (rowOf_split w x1 y1 Hx1). eexists.
    rewrite <- !app_assoc. simpl. reflexivity.
  - rewrite (rowOf_split x2 x1 y2 Hx). eexists.
    rewrite <- !app_assoc. simpl. reflexivity.
Qed.

Lemma rowMajor_before w h c :
  c.1 < w → c.2 < h → ∃ rest, rowMajor w h = before w c ++ c :: rest.
Proof.
  destruct c as [x y]. simpl. intros Hx Hy. unfold before. simpl.
  destruct (rowMajor_split w h y Hy) as [rest ->].
  rewrite (rowOf_split w x y Hx). eexists.
  rewrite <- !app_assoc. simpl. reflexivity.
Qed.
End ScanOrder.

(** ** The first pass *)

Section FirstPass.
Import Smh Spec.
Variable g : Grid.

Lemma keys_assign n0 (cs : list (nat * nat)) k :
  k ∈ (keyed <$> assign (numberedCell g) n0 cs).*1 →
  ∃ c, c ∈ cs ∧ numberedCell g c = true ∧ k = coordKey c.1 c.2.
Proof.
  rewrite <- list_fmap_compose, list_elem_of_fmap.
  intros ([c n] & -> & Hin).
  apply (list_elem_of_fmap_2 fst) in Hin. rewrite assign_fst in Hin.
  apply list_elem_of_In, List.filter_In in Hin as [Hin Hp].
  exists c. by rewrite <- list_elem_of_In in Hin.
Qed.

(** State of the loop over [x] after [k] iterations. *)
Lemma scanCell_loop y acc k :
  (∀ x, coordKey x y ∉ (cellMap (numbering acc)).*1) →
  let r := fold_left (scanCell g y) (seq 0 k) acc in
  cellNumber (numbering r)
    = cellNumber (numbering acc) + length (List.filter (numberedCell g) (rowOf k y))
  ∧ cellMap (numbering r)
    = cellMap (numbering acc)
      ++ (keyed <$> assign (numberedCell g) (cellNumber (numbering acc)) (rowOf k y))
  ∧ puzzleRow r
    = puzzleRow acc
      ++ ((λ x, if isBlock (cellAt g y x) then Block
                else if numberedCell g (x, y)
                then Num (cellNumber (numbering acc)
                          + length (List.filter (numberedCell g) (rowOf x y)))
                else Num 0) <$> seq 0 k)
  ∧ solutionRow r = solutionRow acc ++ ((λ x, solutionCellAt g (x, y)) <$> seq 0 k).
Proof.
  intros Hfresh. induction k as [|k IH].
  - simpl. by rewrite !app_nil_r, Nat.add_0_r.
  - cbv zeta in IH |- *. rewrite seq_S, fold_left_app. cbn [fold_left].
    change (0 + k) with k. cbn [List.filter].
    destruct IH as (IHn & IHm & IHp & IHs).
    set (r := fold_left (scanCell g y) (seq 0 k) acc) in *.
    rewrite rowOf_S, List.filter_app, length_app, assign_app, assign_one, !fmap_app.
    cbn [List.filter].
    assert (numberedCell g (k, y)
            = negb (isBlock (cellAt g y k))
              && (isAcrossStart g k y || isDownStart g k y)) as Hp by done.
    unfold scanCell, solutionCellAt. cbv zeta. cbn [fst snd fmap list_fmap].
    rewrite Hp.
    destruct (isBlock (cellAt g y k)) eqn:Hb;
      [|destruct (isAcrossStart g k y || isDownStart g k y) eqn:Hs]; simpl.
    + rewrite IHn, IHm, IHp, IHs, ?app_nil_r, ?Nat.add_0_r, <- ?app_assoc. done.
    + rewrite objSet_fresh.
      * rewrite IHn, IHm, IHp, IHs, <- ?app_assoc. repeat split; try done; lia.
      * rewrite IHm, fmap_app, not_elem_of_app. split; [apply Hfresh|].
        intros (c & Hc & _ & Hk)%keys_assign.
        apply elem_of_rowOf in Hc. apply coordKey_inj in Hk. lia.
    + rewrite IHn, IHm, IHp, IHs, ?app_nil_r, ?Nat.add_0_r, <- ?app_assoc. done.
Qed.

Lemma numberAt_split x y :
  numberAt g (x, y)
  = 1 + length (List.filter (numberedCell g) (rowMajor (gridWidth g) y))
    + length (List.filter (numberedCell g) (rowOf x y)).
Proof.
  unfold numberAt, before. cbn [fst snd].
  rewrite List.filter_app, length_app. lia.
Qed.

(** State of the loop over [y] after [j] iterations. *)
Lemma scanRow_loop j :
  let r := fold_left (scanRow g) (seq 0 j)
             {| numbered := {| cellNumber := 1; cellMap := [] |};
                puzzleRows := []; solutionRows := [] |} in
  cellNumber (numbered r)
    = 1 + length (List.filter (numberedCell g) (rowMajor (gridWidth g) j))
  ∧ cellMap (numbered r)
    = keyed <$> assign (numberedCell g) 1 (rowMajor (gridWidth g) j)
  ∧ puzzleRows r
    = (λ y, (λ x, puzzleCellAt g (x, y)) <$> seq 0 (gridWidth g)) <$> seq 0 j
  ∧ solutionRows r
    = (λ y, (λ x, solutionCellAt g (x, y)) <$> seq 0 (gridWidth g)) <$> seq 0 j.
Proof.
  induction j as [|j IH]; [done|].
  cbv zeta in IH |- *. rewrite seq_S, fold_left_app. cbn [fold_left].
  change (0 + j) with j.
  destruct IH as (IHn & IHm & IHp & IHs).
  set (r := fold_left (scanRow g) (seq 0 j) _) in *.
  unfold scanRow. cbv zeta. cbn [numbered puzzleRows solutionRows].
  edestruct (scanCell_loop j
    {| numbering := numbered r; puzzleRow := []; solutionRow := [] |}
    (gridWidth g)) as (Hn & Hm & Hp & Hs).
  { cbn [numbering]. rewrite IHm. intros x (c & Hc & _ & Hk)%keys_assign.
    apply elem_of_rowMajor in Hc. apply coordKey_inj in Hk. lia. }
  cbn [numbering puzzleRow solutionRow] in Hn, Hm, Hp, Hs.
  rewrite Hn, Hm, Hp, Hs, IHn, IHm, IHp, IHs.
  rewrite rowMajor_S, List.filter_app, length_app, assign_app, !fmap_app.
  cbn [fmap list_fmap app].
  repeat split; try done; try lia.
  do 2 f_equal. apply list_fmap_ext. intros _ x _.
  unfold puzzleCellAt. cbn [fst snd]. by rewrite numberAt_split.
Qed.

Lemma firstPass_cellMap :
  cellMap (numbered (firstPass g))
  = keyed <$> assign (numberedCell g) 1 (rowMajor (gridWidth g) (gridHeight g)).
Proof. apply (scanRow_loop (gridHeight g)). Qed.

Lemma firstPass_puzzleRows :
  puzzleRows (firstPass g)
  = (λ y, (λ x, puzzleCellAt g (x, y)) <$> seq 0 (gridWidth g)) <$> seq 0 (gridHeight g).
Proof. apply (scanRow_loop (gridHeight g)). Qed.

Lemma firstPass_solutionRows :
  solutionRows (firstPass g)
  = (λ y, (λ x, solutionCellAt g (x, y)) <$> seq 0 (gridWidth g)) <$> seq 0 (gridHeight g).
Proof. apply (scanRow_loop (gridHeight g)). Qed.

(** What the numbering map holds under the key of a cell. *)
Lemma firstPass_lookup x y :
  Js.objGet (coordKey x y) (cellMap (numbered (firstPass g)))
  = if (x <? gridWidth g) && (y <? gridHeight g) && numberedCell g (x, y)
    then Some (numberAt g (x, y)) else None.
Proof.
  rewrite firstPass_cellMap.
  destruct ((x <? gridWidth g) && (y <? gridHeight g) && numberedCell g (x, y)) eqn:E.
  - apply andb_true_iff in E as [[Hx Hy]%andb_true_iff Hp].
    apply Nat.ltb_lt in Hx, Hy.
    destruct (rowMajor_before (gridWidth g) (gridHeight g) (x, y) Hx Hy) as [rest ->].
    rewrite assign_app, (assign_app _ _ [(x, y)] rest), assign_one, Hp, !fmap_app.
    rewrite objGet_app_r.
    + cbn. by rewrite String.eqb_refl.
    + intros (c & Hc & _ & Hk)%keys_assign.
      apply elem_of_before in Hc as [_ Hc]; [|simpl; lia].
      apply coordKey_inj in Hk. unfold scannedBefore in Hc. simpl in Hc. lia.
  - apply objGet_None. intros (c & Hc & Hp & Hk)%keys_assign.
    apply elem_of_rowMajor in Hc as [Hx Hy]. apply coordKey_inj in Hk as [-> ->].
    apply Nat.ltb_lt in Hx, Hy. destruct c. simpl in *. by rewrite Hx, Hy, Hp in E.
Qed.

(** What the puzzle grid holds at a cell. *)
Lemma firstPass_puzzle_at x y :
  x < gridWidth g → y < gridHeight g →
  puzzleRows (firstPass g) !! y ≫= (.!! x) = Some (puzzleCellAt g (x, y)).
Proof.
  intros Hx Hy. rewrite firstPass_puzzleRows, list_lookup_fmap, lookup_seq_lt by done.
  simpl. by rewrite list_lookup_fmap, lookup_seq_lt.
Qed.

Lemma firstPass_solution_at x y :
  x < gridWidth g → y < gridHeight g →
  solutionRows (firstPass g) !! y ≫= (.!! x) = Some (solutionCellAt g (x, y)).
Proof.
  intros Hx Hy. rewrite firstPass_solutionRows, list_lookup_fmap, lookup_seq_lt by done.
  simpl. by rewrite list_lookup_fmap, lookup_seq_lt.
Qed.

(** Numbers grow along the scan. *)
Lemma numberAt_increasing c1 c2 :
  c1.1 < gridWidth g → c2.1 ≤ gridWidth g →
  numberedCell g c1 = true → scannedBefore c1 c2 →
  numberAt g c1 < numberAt g c2.
Proof.
  intros H1 H2 Hp Hlt. unfold numberAt.
  destruct (before_extends _ c1 c2 H1 H2 Hlt) as [rest ->].
  rewrite List.filter_app, length_app. cbn [List.filter]. rewrite Hp. simpl. lia.
Qed.

(** The numbers handed out are [1], [2], ... without a gap. *)
Lemma firstPass_numbers :
  (cellMap (numbered (firstPass g))).*2
  = seq 1 (length (List.filter (numberedCell g)
                     (rowMajor (gridWidth g) (gridHeight g)))).
Proof.
  rewrite firstPass_cellMap, <- list_fmap_compose, <- (assign_snd (numberedCell g) 1).
  apply list_fmap_ext. by intros ? [??] ?.
Qed.
End FirstPass.

(** ** The start predicates on rectangular grids *)

Section Rectangular.
Import Smh Spec.
Variable g : Grid.
Hypothesis Hrect : rectangular g.

Lemma cellAt_inside x y :
  x < gridWidth g → y < gridHeight g → is_Some (cellAt g y x).
Proof.
  intros Hx Hy. unfold cellAt.
  destruct (g !! y) as [r|] eqn:Hr; simpl.
  - apply lookup_lt_is_Some_2.
    unfold rectangular in Hrect. rewrite Forall_forall in Hrect.
    rewrite (Hrect r); [done|]. by eapply list_elem_of_lookup_2.
  - apply lookup_ge_None in Hr. unfold gridHeight in Hy. lia.
Qed.

Lemma cellAt_outside x y :
  gridWidth g ≤ x ∨ gridHeight g ≤ y → cellAt g y x = None.
Proof.
  intros Hout. unfold cellAt.
  destruct (g !! y) as [r|] eqn:Hr; [|done]. simpl.
  apply lookup_ge_None_2.
  unfold rectangular in Hrect. rewrite Forall_forall in Hrect.
  rewrite (Hrect r); [|by eapply list_elem_of_lookup_2].
  destruct Hout as [?|Hy]; [done|].
  apply lookup_lt_Some in Hr. unfold gridHeight in Hy. lia.
Qed.

Lemma isLetter_inside x y :
  x < gridWidth g → y < gridHeight g →
  isLetter (cellAt g y x) = negb (isBlock (cellAt g y x)).
Proof. intros Hx Hy. by destruct (cellAt_inside x y Hx Hy) as [a ->]. Qed.

Lemma absentOrBlock_inside x y :
  x < gridWidth g → y < gridHeight g →
  absentOrBlock (cellAt g y x) = isBlock (cellAt g y x).
Proof. intros Hx Hy. by destruct (cellAt_inside x y Hx Hy) as [a ->]. Qed.

Lemma cellAtZ_pred_x x y :
  cellAtZ g (Z.of_nat x - 1) (Z.of_nat y)
  = if x =? 0 then None else cellAt g y (x - 1).
Proof.
  unfold cellAtZ. destruct x as [|x].
  - done.
  - replace (Z.of_nat (S x) - 1)%Z with (Z.of_nat x) by lia.
    rewrite !Nat2Z.id. simpl. rewrite Nat.sub_0_r.
    destruct (Z.ltb_spec (Z.of_nat x) 0), (Z.ltb_spec (Z.of_nat y) 0); simpl; try done; lia.
Qed.

Lemma cellAtZ_pred_y x y :
  cellAtZ g (Z.of_nat x) (Z.of_nat y - 1)
  = if y =? 0 then None else cellAt g (y - 1) x.
Proof.
  unfold cellAtZ. destruct y as [|y].
  - simpl. by rewrite orb_true_r.
  - replace (Z.of_nat (S y) - 1)%Z with (Z.of_nat y) by lia.
    rewrite !Nat2Z.id. simpl. rewrite Nat.sub_0_r.
    destruct (Z.ltb_spec (Z.of_nat x) 0), (Z.ltb_spec (Z.of_nat y) 0); simpl; try done; lia.
Qed.

Lemma cellAtZ_succ_x x y :
  cellAtZ g (Z.of_nat x + 1) (Z.of_nat y) = cellAt g y (x + 1).
Proof.
  unfold cellAtZ. replace (Z.of_nat x + 1)%Z with (Z.of_nat (x + 1)) by lia.
  rewrite !Nat2Z.id.
  destruct (Z.ltb_spec (Z.of_nat (x + 1)) 0), (Z.ltb_spec (Z.of_nat y) 0); simpl; try done; lia.
Qed.

Lemma cellAtZ_succ_y x y :
  cellAtZ g (Z.of_nat x) (Z.of_nat y + 1) = cellAt g (y + 1) x.
Proof.
  unfold cellAtZ. replace (Z.of_nat y + 1)%Z with (Z.of_nat (y + 1)) by lia.
  rewrite !Nat2Z.id.
  destruct (Z.ltb_spec (Z.of_nat x) 0), (Z.ltb_spec (Z.of_nat (y + 1)) 0); simpl; try done; lia.
Qed.

(** The test of the code and the predicate of the specification agree. *)
Lemma isAcrossStart_spec x y :
  x < gridWidth g → y < gridHeight g →
  negb (isBlock (cellAt g y x)) && isAcrossStart g x y = startsAcross g x y.
Proof.
  intros Hx Hy. unfold isAcrossStart, startsAcross.
  rewrite cellAtZ_pred_x, cellAtZ_succ_x, isLetter_inside, andb_assoc by done.
  f_equal; [f_equal|].
  - destruct (Nat.eqb_spec x 0) as [->|Hx0]; [done|]. simpl.
    by rewrite absentOrBlock_inside by lia.
  - destruct (Nat.ltb_spec x (gridWidth g - 1)).
    + by rewrite isLetter_inside by lia.
    + by rewrite cellAt_outside by lia.
Qed.

Lemma isDownStart_spec x y :
  x < gridWidth g → y < gridHeight g →
  negb (isBlock (cellAt g y x)) && isDownStart g x y = startsDown g x y.
Proof.
  intros Hx Hy. unfold isDownStart, startsDown.
  rewrite cellAtZ_pred_y, cellAtZ_succ_y, isLetter_inside, andb_assoc by done.
  f_equal; [f_equal|].
  - destruct (Nat.eqb_spec y 0) as [->|Hy0]; [done|]. simpl.
    by rewrite absentOrBlock_inside by lia.
  - destruct (Nat.ltb_spec y (gridHeight g - 1)).
    + by rewrite isLetter_inside by lia.
    + by rewrite cellAt_outside by lia.
Qed.

Lemma numberedCell_spec c :
  c.1 < gridWidth g → c.2 < gridHeight g →
  numberedCell g c = startsEntry g c.
Proof.
  intros Hx Hy. unfold numberedCell, startsEntry.
  rewrite <- isAcrossStart_spec, <- isDownStart_spec by done.
  by rewrite andb_orb_distrib_r.
Qed.

Lemma starts_spec :
  List.filter (numberedCell g) (rowMajor (gridWidth g) (gridHeight g))
  = List.filter (startsEntry g) (rowMajor (gridWidth g) (gridHeight g)).
Proof.
  apply List.filter_ext_in. intros c Hc%list_elem_of_In%elem_of_rowMajor.
  apply numberedCell_spec; apply Hc.
Qed.
End Rectangular.

(** ** Numbering of grid-string sources *)

Section NumberingClaims.
Import Smh Spec.

Lemma keyed_zip (cs : list (nat * nat)) (ns : list nat) :
  keyed <$> zip cs ns = zip ((λ c, coordKey c.1 c.2) <$> cs) ns.
Proof.
  revert ns. induction cs as [|c cs IH]; intros [|n ns]; simpl; try done.
  by rewrite IH.
Qed.

(** C1. On a rectangular grid the numbering map lists, in the order of
    insertion, the cells that satisfy the across-start or the down-start
    predicate of the specification, in row-major order, with the numbers
    1, 2, 3, ... in that order, each once.  A letter cell inside the grid
    has a number under its key exactly when one of the two predicates holds;
    the puzzle grid shows that number there, and 0 when there is none.
    Consequently a cell scanned earlier has the smaller number. *)
Theorem numbering_follows_start_predicates (today : string) (p : Puzzle) :
  let g := grid (game p) in
  let cm := cellMap (numbered (firstPass g)) in
  let out := convertSMHToIPUZ today p in
  let starts := List.filter (startsEntry g) (rowMajor (gridWidth g) (gridHeight g)) in
  rectangular g →
  cm = zip ((λ c, coordKey c.1 c.2) <$> starts) (seq 1 (length starts))
  ∧ cm.*2 = seq 1 (length starts)
  ∧ (∀ x y, x < gridWidth g → y < gridHeight g →
       isBlock (cellAt g y x) = false →
       (is_Some (Js.objGet (coordKey x y) cm)
        ↔ startsAcross g x y = true ∨ startsDown g x y = true)
       ∧ puzzle out !! y ≫= (.!! x)
         = Some (Num (default 0 (Js.objGet (coordKey x y) cm))))
  ∧ (∀ c1 c2 n1 n2,
       Js.objGet (coordKey c1.1 c1.2) cm = Some n1 →
       Js.objGet (coordKey c2.1 c2.2) cm = Some n2 →
       scannedBefore c1 c2 → n1 < n2).
Proof.
  intros g cm out starts Hrect. subst cm starts.
  split; [|split; [|split]].
  - rewrite firstPass_cellMap. unfold assign.
    by rewrite keyed_zip, starts_spec.
  - by rewrite firstPass_numbers, starts_spec.
  - intros x y Hx Hy Hb. rewrite firstPass_lookup.
    apply Nat.ltb_lt in Hx as Hx', Hy as Hy'. rewrite Hx', Hy'. cbn [andb].
    split.
    + rewrite numberedCell_spec by done. unfold startsEntry. cbn [fst snd].
      rewrite <- orb_true_iff.
      destruct (startsAcross g x y || startsDown g x y); [by eauto|].
      split; [by intros [? ?]|done].
    + subst out. unfold convertSMHToIPUZ. cbn [puzzle]. fold g.
      rewrite firstPass_puzzle_at by done.
      unfold puzzleCellAt. cbn [fst snd]. rewrite Hb.
      by destruct (numberedCell g (x, y)).
  - intros [x1 y1] [x2 y2] n1 n2. rewrite !firstPass_lookup. cbn [fst snd].
    destruct (Nat.ltb_spec x1 (gridWidth g)), (Nat.ltb_spec y1 (gridHeight g)),
      (numberedCell g (x1, y1)) eqn:Hp1; simpl; try done.
    destruct (Nat.ltb_spec x2 (gridWidth g)), (Nat.ltb_spec y2 (gridHeight g)),
      (numberedCell g (x2, y2)) eqn:Hp2; simpl; try done.
    intros [= <-] [= <-] Hlt. apply numberAt_increasing; simpl; try done. lia.
Qed.

Lemma numbering_follows_start_predicates_witness :
  Spec.rectangular (grid (game Examples.catDot))
  ∧ cellMap (numbered (firstPass (grid (game Examples.catDot))))
    = [("0,0", 1); ("1,0", 2)].
Proof.
  assert (Spec.rectangular (grid (game Examples.catDot))) as Hrect
    by (repeat constructor).
  split; [exact Hrect|].
  exact (proj1 (numbering_follows_start_predicates "2025-10-08" Examples.catDot Hrect)).
Defined.
End NumberingClaims.

(** ** Isolated letters *)

Section Isolated.
Import Smh Spec.

Lemma isolated_not_across g x y :
  y < gridHeight g →
  blockOrEdge g (Z.of_nat x + 1) (Z.of_nat y) = true → isAcrossStart g x y = false.
Proof.
  unfold blockOrEdge, isAcrossStart, cellAtZ. intros Hy H.
  apply andb_false_iff. right. apply andb_false_iff.
  destruct (Nat.ltb_spec x (gridWidth g - 1)); [right|by left].
  repeat (apply orb_true_iff in H as [H|H]);
    try (apply Z.ltb_lt in H; lia); try (apply Z.leb_le in H; lia).
  destruct ((Z.of_nat x + 1 <? 0)%Z || (Z.of_nat y <? 0)%Z) eqn:E; [by simpl in H|].
  replace (Z.to_nat (Z.of_nat x + 1)) with (x + 1) in H by lia.
  rewrite Nat2Z.id in H. by rewrite H.
Qed.

Lemma isolated_not_down g x y :
  x < gridWidth g →
  blockOrEdge g (Z.of_nat x) (Z.of_nat y + 1) = true → isDownStart g x y = false.
Proof.
  unfold blockOrEdge, isDownStart, cellAtZ. intros Hx H.
  apply andb_false_iff. right. apply andb_false_iff.
  destruct (Nat.ltb_spec y (gridHeight g - 1)); [right|by left].
  repeat (apply orb_true_iff in H as [H|H]);
    try (apply Z.ltb_lt in H; lia); try (apply Z.leb_le in H; lia).
  destruct ((Z.of_nat x <? 0)%Z || (Z.of_nat y + 1 <? 0)%Z) eqn:E; [by simpl in H|].
  replace (Z.to_nat (Z.of_nat y + 1)) with (y + 1) in H by lia.
  rewrite Nat2Z.id in H. by rewrite H.
Qed.

Lemma referenced_empty_map refs out : referenced [] refs out = out.
Proof.
  destruct refs as [l|]; [|done]. simpl.
  revert out. induction l as [|c l IH]; intros out; [done|]. apply IH.
Qed.

Lemma pushWord_empty_map x y word out : pushWord [] x y word out = out.
Proof. unfold pushWord. by destruct (1 <? String.length word). Qed.

(** C7. Whatever the grid, a letter cell inside it whose four neighbours
    are each a block or beyond an edge (of the box of [gridWidth] columns
    and [gridHeight] rows) gets no entry in the numbering map and shows 0 in
    the puzzle grid.  A grid of one letter cell gives an empty
    numbering map, the puzzle grid [[0]] and empty across and down lists,
    with or without clue references in the source. *)
Theorem isolated_letter_not_numbered (today : string) (p : Puzzle) :
  let g := grid (game p) in
  let cm := cellMap (numbered (firstPass g)) in
  let out := convertSMHToIPUZ today p in
  (∀ x y, x < gridWidth g → y < gridHeight g →
     isBlock (cellAt g y x) = false → isolated g x y = true →
     Js.objGet (coordKey x y) cm = None
     ∧ puzzle out !! y ≫= (.!! x) = Some (Num 0))
  ∧ (∀ a, g = [[a]] → a ≠ "."%char →
     cm = [] ∧ puzzle out = [[Num 0]] ∧ across out = [] ∧ down out = []).
Proof.
  intros g cm out. split.
  - intros x y Hx Hy Hb Hiso. unfold isolated in Hiso.
    apply andb_true_iff in Hiso as [[[_ Hr]%andb_true_iff _]%andb_true_iff Hd].
    assert (numberedCell g (x, y) = false) as Hp.
    { unfold numberedCell. cbn [fst snd].
      by rewrite isolated_not_across, isolated_not_down, andb_false_r. }
    subst cm out. unfold convertSMHToIPUZ. cbn [puzzle]. fold g.
    rewrite firstPass_lookup, firstPass_puzzle_at, Hp, !andb_false_r by done.
    unfold puzzleCellAt. cbn [fst snd]. by rewrite Hb, Hp.
  - intros a Hg Ha. apply Ascii.eqb_neq in Ha.
    assert (firstPass g
            = {| numbered := {| cellNumber := 1; cellMap := [] |};
                 puzzleRows := [[Num 0]]; solutionRows := [[Some a]] |}) as Hfp.
    { rewrite Hg. unfold firstPass, scanRow, scanCell. simpl. by rewrite Ha. }
    subst cm out. unfold convertSMHToIPUZ. cbn [puzzle across down]. fold g.
    rewrite Hfp. cbn [numbered cellMap puzzleRows].
    assert (secondPass (game p) [] = ([], [])) as ->; [|done].
    unfold secondPass. destruct (srcClues (game p)) as [cs|].
    + by rewrite !referenced_empty_map.
    + fold g. rewrite Hg. unfold inferred, inferRow, inferCell. simpl.
      by rewrite Ha, !pushWord_empty_map.
Qed.

Lemma isolated_letter_not_numbered_witness :
  puzzle (convertSMHToIPUZ "2025-10-08" Examples.oneLetter) !! 0 ≫= (.!! 0)
  = Some (Num 0).
Proof.
  refine (proj2 (proj1 (isolated_letter_not_numbered "2025-10-08" Examples.oneLetter)
                   0 0 _ _ _ _)); vm_compute; (lia || reflexivity).
Defined.
End Isolated.

(** ** The scenario of the specification *)

Section Scenario.
Import Smh.

(** C4, as stated: the grid ["CAT","#A#","#T#"] does not give the numbering
    map {(0,0):1}, the row [1,0,0] and one clue per direction. *)
Lemma cat_scenario_counterexample :
  ¬ (let out := convertSMHToIPUZ "2025-10-08" Examples.catHash in
     cellMap (numbered (firstPass (grid (game Examples.catHash)))) = [("0,0", 1)]
     ∧ puzzle out !! 0 = Some [Num 1; Num 0; Num 0]
     ∧ length (across out) = 1 ∧ length (down out) = 1).
Proof. intros [H _]. vm_compute in H. discriminate H. Qed.

(** C4, amended.  ['#'] is a letter of the source format, whose block
    marker is ['.'], so all nine cells of ["CAT","#A#","#T#"] are letters:
    the numbering map is {(0,0):1, (1,0):2, (2,0):3, (0,1):4, (0,2):5}, row 0
    of the puzzle grid is [1,2,3], the across list has the entries 1, 4, 5
    and the down list the entries 1, 2, 3; cell (0,0) starts an across and a
    down word under the one number 1.  With ['.'] for the blocks the map is
    {(0,0):1, (1,0):2}, row 0 is [1,2,0], the across list has the entry 1 and
    the down list the entry 2. *)
Theorem cat_scenario (today : string) :
  (let out := convertSMHToIPUZ today Examples.catHash in
   cellMap (numbered (firstPass (grid (game Examples.catHash))))
   = [("0,0", 1); ("1,0", 2); ("2,0", 3); ("0,1", 4); ("0,2", 5)]
   ∧ puzzle out !! 0 = Some [Num 1; Num 2; Num 3]
   ∧ across out = [("1", ""); ("4", ""); ("5", "")]
   ∧ down out = [("1", ""); ("2", ""); ("3", "")])
  ∧ (let out := convertSMHToIPUZ today Examples.catDot in
     cellMap (numbered (firstPass (grid (game Examples.catDot))))
     = [("0,0", 1); ("1,0", 2)]
     ∧ puzzle out !! 0 = Some [Num 1; Num 2; Num 0]
     ∧ across out = [("1", "")]
     ∧ down out = [("2", "")]).
Proof. repeat split; vm_compute; reflexivity. Qed.
End Scenario.

(** ** Clue references *)

Section References.
Import Smh Spec.

Lemma findNumber_hasNumber cm pos :
  match findNumber cm pos with
  | Some (_, n) => Z.of_nat n = pos ∧ hasNumber cm pos = true
  | None => hasNumber cm pos = false
  end.
Proof.
  unfold findNumber, hasNumber. induction cm as [|[k n] cm IH]; simpl; [done|].
  destruct (Z.eqb_spec (Z.of_nat n) pos); simpl; [done|]. apply IH.
Qed.

Lemma pushRef_loop cm refs out :
  entryPair <$> fold_left (pushRef cm) refs out
  = (entryPair <$> out)
    ++ (refPair <$> List.filter (λ c, hasNumber cm (position c)) refs).
Proof.
  revert out. induction refs as [|c refs IH]; intros out; simpl.
  - by rewrite app_nil_r.
  - rewrite IH. unfold pushRef.
    pose proof (findNumber_hasNumber cm (position c)) as H.
    destruct (findNumber cm (position c)) as [[k n]|].
    + destruct H as [Hn ->]. destruct (parseCoord k) as [cl rw].
      rewrite fmap_app, <- app_assoc. simpl. unfold entryPair at 2, refPair at 2.
      simpl. by rewrite Hn.
    + by rewrite H.
Qed.

Lemma pushRef_cases cm out c :
  if hasNumber cm (position c)
  then ∃ e, pushRef cm out c = out ++ [e] ∧ entryPair e = refPair c
  else pushRef cm out c = out.
Proof.
  unfold pushRef. pose proof (findNumber_hasNumber cm (position c)) as H.
  destruct (findNumber cm (position c)) as [[k n]|].
  - destruct H as [Hn ->]. destruct (parseCoord k) as [cl rw].
    eexists. split; [done|]. unfold entryPair, refPair. simpl. by rewrite Hn.
  - by rewrite H.
Qed.

Lemma referenced_pairs cm refs :
  entryPair <$> referenced cm refs []
  = refPair <$> List.filter (λ c, hasNumber cm (position c)) (default [] refs).
Proof. destruct refs as [l|]; [|done]. simpl. by rewrite pushRef_loop. Qed.

(** C5. In referenced mode a clue reference whose number has no coordinate
    in the numbering map adds nothing and raises nothing, and one whose
    number has a coordinate adds exactly one entry, with that number and the
    text of the clue.  Each emitted list is the sorted, formatted list of
    those entries, so the references without a coordinate are absent from
    the document. *)
Theorem stale_references_skipped (today : string) (p : Puzzle) (cs : Clues) :
  srcClues (game p) = Some cs →
  let cm := cellMap (numbered (firstPass (grid (game p)))) in
  let kept refs := List.filter (λ c, hasNumber cm (position c)) (default [] refs) in
  (∀ out c, hasNumber cm (position c) = false → pushRef cm out c = out)
  ∧ (∀ out c, hasNumber cm (position c) = true →
       ∃ e, pushRef cm out c = out ++ [e] ∧ entryPair e = refPair c)
  ∧ ∃ ea ed,
      across (convertSMHToIPUZ today p) = format <$> Js.sortBy number ea
      ∧ down (convertSMHToIPUZ today p) = format <$> Js.sortBy number ed
      ∧ entryPair <$> ea = refPair <$> kept (srcAcross cs)
      ∧ entryPair <$> ed = refPair <$> kept (srcDown cs).
Proof.
  intros Hcs cm kept. split; [|split].
  - intros out c H. pose proof (pushRef_cases cm out c) as Hc. by rewrite H in Hc.
  - intros out c H. pose proof (pushRef_cases cm out c) as Hc. by rewrite H in Hc.
  - exists (referenced cm (srcAcross cs) []), (referenced cm (srcDown cs) []).
    unfold convertSMHToIPUZ, secondPass. cbn [across down]. rewrite Hcs.
    cbn [fst snd]. by rewrite !referenced_pairs.
Qed.

Lemma stale_references_skipped_witness :
  srcClues (game Examples.catRefs) = Some Examples.catClues
  ∧ pushRef (cellMap (numbered (firstPass (grid (game Examples.catRefs))))) []
      {| position := 7; question := Some "stale" |} = [].
Proof.
  split; [reflexivity|].
  apply (proj1 (stale_references_skipped "2025-10-08" Examples.catRefs
                  Examples.catClues eq_refl)).
  vm_compute. reflexivity.
Defined.
End References.

(** ** The stable sort *)

Section SortFacts.
Import Js Spec.
Context {A : Type} (key : A → nat).

Lemma cmp_le a b : (cmp key a b <=? 0)%Z = (key a <=? key b).
Proof.
  unfold cmp. destruct (Nat.leb_spec (key a) (key b)), (Z.leb_spec (Z.of_nat (key a) - Z.of_nat (key b)) 0); try done; lia.
Qed.

Lemma insertBy_perm a l : insertBy key a l ≡ₚ a :: l.
Proof.
  induction l as [|b l IH]; simpl; [done|].
  destruct (cmp key a b <=? 0)%Z; [done|].
  rewrite IH. apply Permutation_swap.
Qed.

Lemma sortBy_perm l : sortBy key l ≡ₚ l.
Proof.
  induction l as [|a l IH]; simpl; [done|].
  by rewrite insertBy_perm, IH.
Qed.

Lemma insertBy_sorted a l : sortedBy key l → sortedBy key (insertBy key a l).
Proof.
  unfold sortedBy. induction l as [|b l IH]; intros Hs; simpl.
  - by repeat constructor.
  - rewrite cmp_le. apply StronglySorted_inv in Hs as [Hl Hb].
    destruct (Nat.leb_spec (key a) (key b)) as [Hab|Hab].
    + constructor; [by constructor|].
      constructor; [done|]. eapply Forall_impl; [exact Hb|]. simpl. lia.
    + constructor; [by apply IH|].
      rewrite insertBy_perm. constructor; [lia|done].
Qed.

Lemma sortBy_sorted l : sortedBy key (sortBy key l).
Proof.
  induction l as [|a l IH]; simpl; [constructor|]. by apply insertBy_sorted.
Qed.

Lemma insertBy_stable a l n :
  List.filter (λ x, key x =? n) (insertBy key a l)
  = List.filter (λ x, key x =? n) (a :: l).
Proof.
  induction l as [|b l IH]; [done|].
  cbn [insertBy]. rewrite cmp_le.
  destruct (Nat.leb_spec (key a) (key b)) as [Hab|Hab]; [done|].
  cbn [List.filter] in IH |- *. rewrite IH.
  destruct (Nat.eqb_spec (key a) n), (Nat.eqb_spec (key b) n); try done; lia.
Qed.

Lemma sortBy_stable l : stableFor key l (sortBy key l).
Proof.
  intros n. induction l as [|a l IH]; [done|].
  cbn [sortBy foldr]. rewrite insertBy_stable. cbn [List.filter].
  fold (sortBy key l). by rewrite IH.
Qed.
End SortFacts.

(** ** The labeled-cell converter: grids *)

Section NytGrids.
Import Nyt Spec.

Lemma push_pair_loop {X B C} (f : X → B) (h : X → C) (l : list X) (acc : list B * list C) :
  fold_left (λ acc x, (acc.1 ++ [f x], acc.2 ++ [h x])) l acc
  = (acc.1 ++ (f <$> l), acc.2 ++ (h <$> l)).
Proof.
  revert acc. induction l as [|x l IH]; intros [a b]; simpl.
  - by rewrite !app_nil_r.
  - rewrite IH. simpl. by rewrite <- !app_assoc.
Qed.

Lemma buildGrids_rows pd :
  buildGrids pd
  = ((λ row, (λ col, (cellOut (cells pd !! (row * width (dimensions pd) + col))).1)
               <$> seq 0 (width (dimensions pd))) <$> seq 0 (height (dimensions pd)),
     (λ row, (λ col, (cellOut (cells pd !! (row * width (dimensions pd) + col))).2)
               <$> seq 0 (width (dimensions pd))) <$> seq 0 (height (dimensions pd))).
Proof.
  unfold buildGrids, buildRow, buildCell.
  rewrite (push_pair_loop
    (λ row, (fold_left _ (seq 0 (width (dimensions pd))) ([], [])).1)
    (λ row, (fold_left _ (seq 0 (width (dimensions pd))) ([], [])).2)).
  simpl. f_equal; apply list_fmap_ext; intros _ row _;
    by rewrite (push_pair_loop (λ col, (cellOut _).1) (λ col, (cellOut _).2)).
Qed.

Lemma buildGrids_at pd row col :
  row < height (dimensions pd) → col < width (dimensions pd) →
  (buildGrids pd).1 !! row ≫= (.!! col)
    = Some (cellOut (cells pd !! (row * width (dimensions pd) + col))).1
  ∧ (buildGrids pd).2 !! row ≫= (.!! col)
    = Some (cellOut (cells pd !! (row * width (dimensions pd) + col))).2.
Proof.
  intros Hr Hc. rewrite buildGrids_rows. cbn [fst snd].
  rewrite !list_lookup_fmap, !lookup_seq_lt by done. simpl.
  by rewrite !list_lookup_fmap, !lookup_seq_lt.
Qed.

Lemma buildGrids_shape pd :
  length (buildGrids pd).1 = height (dimensions pd)
  ∧ length (buildGrids pd).2 = height (dimensions pd)
  ∧ Forall (λ r, length r = width (dimensions pd)) (buildGrids pd).1
  ∧ Forall (λ r, length r = width (dimensions pd)) (buildGrids pd).2.
Proof.
  rewrite buildGrids_rows. cbn [fst snd].
  rewrite !length_fmap, !length_seq. repeat split; try done;
    apply Forall_fmap, Forall_forall; intros row _; simpl;
    by rewrite length_fmap, length_seq.
Qed.
End NytGrids.

(** ** Reading labels *)

Section Labels.
Import Nyt.

Lemma readDigits_decimal d a :
  readDigits 10 (NilEmpty.string_of_uint d) (Some (Z.of_nat a))
  = Some (Z.of_nat (Nat.of_uint_acc d a)).
Proof.
  revert a. induction d; intros a; [done|..];
    cbn [NilEmpty.string_of_uint Nat.of_uint_acc readDigits];
    (match goal with |- context [digitValue 10 ?c] =>
       let v := eval vm_compute in (digitValue 10 c) in
       change (digitValue 10 c) with v end);
    cbn [from_option id]; rewrite <- IHd; do 2 f_equal;
    rewrite Nat.tail_mul_spec; lia.
Qed.

Lemma readInt_decimal d :
  d ≠ Nil → readInt (NilEmpty.string_of_uint d) = (1%Z, Some (Z.of_nat (Nat.of_uint d))).
Proof.
  intros Hd. unfold Nat.of_uint. rewrite <- (readDigits_decimal d 0).
  destruct d as [|d|d|d|d|d|d|d|d|d|d]; [done|..].
  1: destruct d as [|d|d|d|d|d|d|d|d|d|d].
  all: unfold readInt; cbn [NilEmpty.string_of_uint skipWhiteSpace].
  all: repeat (match goal with |- context [isWhiteSpace ?c] =>
           let v := eval vm_compute in (isWhiteSpace c) in
           change (isWhiteSpace c) with v end).
  all: cbv iota beta zeta; f_equal.
  all: cbn [readDigits].
  all: repeat (match goal with |- context [digitValue 10 ?c] =>
           let v := eval vm_compute in (digitValue 10 c) in
           change (digitValue 10 c) with v end).
  all: reflexivity.
Qed.

Lemma natToString_digits n : ∃ d, d ≠ Nil ∧ Js.natToString n = NilEmpty.string_of_uint d
                                  ∧ Nat.of_uint d = n.
Proof.
  unfold Js.natToString, NilZero.string_of_uint.
  pose proof (Unsigned.of_to n) as Hn.
  destruct (Nat.to_uint n) as [|d|d|d|d|d|d|d|d|d|d] eqn:E.
  { exists (D0 Nil). split; [done|]. split; [done|]. by rewrite <- Hn. }
  all: eexists; split; [|split; [reflexivity|exact Hn]]; done.
Qed.

(** An integer of magnitude up to [2^53] is a double. *)
Lemma toDouble_exact z : (Z.abs z ≤ 2 ^ 53)%Z → toDouble z = Int z.
Proof.
  intros Hz. destruct (Z.eq_dec (Z.abs z) (2 ^ 53)%Z) as [He|Hne].
  - assert (z = 2 ^ 53 ∨ z = - 2 ^ 53)%Z as [-> | ->] by lia; by vm_compute.
  - assert (Z.log2 (Z.abs z) ≤ 52)%Z as Hl.
    { destruct (Z.eq_dec (Z.abs z) 0%Z) as [-> | H0]; [done|].
      apply Z.lt_succ_r, Z.log2_lt_pow2; lia. }
    unfold toDouble. cbv zeta.
    destruct (Z.leb_spec (Z.log2 (Z.abs z) - 52) 0%Z); [|lia].
    destruct (Z.leb_spec 1024%Z (Z.log2 (Z.abs z))); [lia|]. f_equal. lia.
Qed.

Lemma parseInt_numeral n : parseInt (Js.natToString n) = toDouble (Z.of_nat n).
Proof.
  destruct (natToString_digits n) as (d & Hd & -> & <-).
  unfold parseInt. rewrite (readInt_decimal d Hd).
  destruct (Z.eqb_spec (Z.of_nat (Nat.of_uint d)) 0%Z) as [-> | H0]; [done|].
  by rewrite Z.mul_1_l.
Qed.

Lemma parseInt_numeral_exact n :
  (Z.of_nat n ≤ 2 ^ 53)%Z → parseInt (Js.natToString n) = Int (Z.of_nat n).
Proof. intros Hn. rewrite parseInt_numeral. apply toDouble_exact. lia. Qed.
End Labels.

(** ** The labeled-cell converter: clues *)

Section NytClues.
Import Nyt Spec.
Implicit Types (m acc : gmap string (list (string * string))) (cs : list Clue).

Lemma inDirection_cons d c cs :
  inDirection d (c :: cs)
  = if String.eqb (direction c) d then c :: inDirection d cs else inDirection d cs.
Proof. done. Qed.

(** One iteration that does not throw. *)
Lemma addClue_Ok acc c m :
  addClue acc c = Ok m →
  text c ≠ []
  ∧ (is_Some (acc !! direction c) ∨ direction c ∉ inheritedNames)
  ∧ m = <[direction c := default [] (acc !! direction c) ++ [cluePair c]]> acc.
Proof.
  unfold addClue, cluePair. destruct (text c) as [|t ts]; [done|].
  destruct (acc !! direction c) as [l|] eqn:Hl.
  - intros [= <-]. eauto.
  - case_bool_decide; [done|]. intros [= <-]. eauto.
Qed.

Lemma addClue_acceptable acc c :
  acceptable c →
  addClue acc c = Ok (<[direction c := default [] (acc !! direction c) ++ [cluePair c]]> acc).
Proof.
  intros [Ht Hd]. unfold addClue, cluePair. destruct (text c) as [|t ts]; [done|].
  destruct (acc !! direction c) as [l|]; [done|].
  by rewrite bool_decide_eq_false_2.
Qed.

(** The own properties after the loop. *)
Lemma forEach_addClue_lookup cs acc m d :
  forEach addClue cs acc = Ok m →
  m !! d = match acc !! d, inDirection d cs with
           | None, [] => None
           | o, l => Some (default [] o ++ (cluePair <$> l))
           end.
Proof.
  revert acc. induction cs as [|c cs IH]; intros acc; cbn [forEach].
  - intros [= <-]. destruct (acc !! d); simpl; by rewrite ?app_nil_r.
  - destruct (addClue acc c) as [acc'|e] eqn:Hc; [|done]. cbn [bind].
    intros Hm. rewrite (IH _ Hm). apply addClue_Ok in Hc as (_ & _ & ->).
    rewrite inDirection_cons.
    destruct (String.eqb_spec (direction c) d) as [->|Hne].
    + rewrite lookup_insert_eq. simpl. rewrite <- app_assoc. simpl.
      by destruct (acc !! d).
    + rewrite lookup_insert_ne by done.
      by destruct (acc !! d), (inDirection d cs).
Qed.

(** When the loop runs to its end. *)
Lemma forEach_addClue_acceptable cs acc :
  Forall acceptable cs → ∃ m, forEach addClue cs acc = Ok m.
Proof.
  revert acc. induction cs as [|c cs IH]; intros acc Hcs; simpl; [by eauto|].
  apply Forall_cons in Hcs as [Hc Hcs].
  rewrite (addClue_acceptable _ _ Hc). simpl. by apply IH.
Qed.

Lemma forEach_addClue_Ok cs acc m :
  (∀ d, d ∈ inheritedNames → acc !! d = None) →
  forEach addClue cs acc = Ok m → Forall acceptable cs.
Proof.
  revert acc. induction cs as [|c cs IH]; intros acc Hacc; simpl; [by constructor|].
  destruct (addClue acc c) as [acc'|e] eqn:Hc; [|done]. simpl. intros Hm.
  apply addClue_Ok in Hc as (Ht & Hd & ->).
  assert (direction c ∉ inheritedNames) as Hd'.
  { destruct Hd as [[l Hl]|Hd]; [|done]. intros Hin. by rewrite (Hacc _ Hin) in Hl. }
  constructor; [done|]. eapply IH; [|exact Hm].
  intros d Hin. rewrite lookup_insert_ne; [by apply Hacc|]. by intros <-.
Qed.

(** What a throw tells about the clue list. *)
Lemma forEach_addClue_Throw cs acc e :
  forEach addClue cs acc = Throw e →
  match e with
  | CannotReadPlain => Exists (λ c, text c = []) cs
  | PushNotAFunction => Exists (λ c, direction c ∈ inheritedNames) cs
  end.
Proof.
  revert acc. induction cs as [|c cs IH]; intros acc; simpl; [done|].
  destruct (addClue acc c) as [acc'|e'] eqn:Hc; simpl.
  - intros H%IH. destruct e; by apply Exists_cons_tl.
  - intros [= ->]. unfold addClue in Hc.
    destruct (text c) as [|t ts] eqn:Ht.
    { injection Hc as <-. by apply Exists_cons_hd. }
    destruct (acc !! direction c); [done|].
    case_bool_decide; [|done]. injection Hc as <-. by apply Exists_cons_hd.
Qed.

Lemma convertToIPUZ_Ok pd rd out :
  convertToIPUZ pd rd = Ok out →
  buildClues (clues pd) = Ok (outClues out)
  ∧ puzzle out = (buildGrids pd).1 ∧ solution out = (buildGrids pd).2.
Proof.
  unfold convertToIPUZ. destruct (buildClues (clues pd)) as [m|e]; simpl; [|done].
  by intros [= <-].
Qed.

Lemma convertToIPUZ_Throw pd rd e :
  convertToIPUZ pd rd = Throw e ↔ buildClues (clues pd) = Throw e.
Proof.
  unfold convertToIPUZ. destruct (buildClues (clues pd)) as [m|e']; simpl.
  - split; intros H; discriminate H.
  - split; intros [= ->]; reflexivity.
Qed.

(** The conversion succeeds exactly on the acceptable clue lists. *)
Lemma convertToIPUZ_succeeds pd rd :
  (∃ out, convertToIPUZ pd rd = Ok out) ↔ Forall acceptable (clues pd).
Proof.
  split.
  - intros [out (Hm & _)%convertToIPUZ_Ok].
    eapply forEach_addClue_Ok; [|exact Hm]. intros d _. apply lookup_empty.
  - intros H. unfold convertToIPUZ, buildClues.
    destruct (forEach_addClue_acceptable (clues pd) ∅ H) as [m ->]. simpl. eauto.
Qed.

(** The clues of the document, direction by direction. *)
Lemma convertToIPUZ_clues pd rd out d :
  convertToIPUZ pd rd = Ok out →
  outClues out !! d = match inDirection d (clues pd) with
                      | [] => None
                      | l => Some (cluePair <$> l)
                      end.
Proof.
  intros (Hm & _)%convertToIPUZ_Ok.
  rewrite (forEach_addClue_lookup _ _ _ d Hm), lookup_empty.
  by destruct (inDirection d (clues pd)).
Qed.
End NytClues.

(** ** The labeled-cell converter: claims *)

Section NytClaims.
Import Nyt Spec.

(** C2, as stated: a document whose width and height do not match its
    record count converts without an error, and one whose count matches can
    still fail. *)
Lemma dimensions_not_checked_counterexample :
  ¬ ((∃ e, convertToIPUZ Examples.shortDoc Examples.nytRoot = Throw e)
     ↔ ¬ consistent Examples.shortDoc)
  ∧ ¬ (consistent Examples.blankClueDoc →
       ∃ out, convertToIPUZ Examples.blankClueDoc Examples.nytRoot = Ok out).
Proof.
  split.
  - intros [_ H]. destruct H as [e He]; [by compute|]. vm_compute in He. discriminate He.
  - intros H. destruct H as [out Hout]; [by compute|]. vm_compute in Hout. discriminate Hout.
Qed.

(** C2, amended.  The converter never compares width and height with the
    number of cell records.  It always builds [height] rows of [width]
    cells; a cell whose flat index lies beyond the records is a block in
    both grids.  Whether it fails depends on the clue list alone: it
    succeeds exactly when every clue has a text variant and a direction
    that names no property inherited from [Object.prototype]. *)
Theorem dimensions_not_checked (pd : PuzzleData) (rd : RootData) :
  ((∃ out, convertToIPUZ pd rd = Ok out) ↔ Forall acceptable (clues pd))
  ∧ (∀ out, convertToIPUZ pd rd = Ok out →
       length (puzzle out) = height (dimensions pd)
       ∧ length (solution out) = height (dimensions pd)
       ∧ Forall (λ r, length r = width (dimensions pd)) (puzzle out)
       ∧ Forall (λ r, length r = width (dimensions pd)) (solution out)
       ∧ ∀ row col,
           row < height (dimensions pd) → col < width (dimensions pd) →
           length (cells pd) ≤ row * width (dimensions pd) + col →
           puzzle out !! row ≫= (.!! col) = Some Block
           ∧ solution out !! row ≫= (.!! col) = Some "#").
Proof.
  split; [apply convertToIPUZ_succeeds|].
  intros out (_ & -> & ->)%convertToIPUZ_Ok.
  destruct (buildGrids_shape pd) as (? & ? & ? & ?).
  do 4 (split; [done|]). intros row col Hr Hc Hlen.
  destruct (buildGrids_at pd row col Hr Hc) as [-> ->].
  by rewrite lookup_ge_None_2.
Qed.

Lemma dimensions_not_checked_witness :
  ∃ out, convertToIPUZ Examples.shortDoc Examples.nytRoot = Ok out
         ∧ puzzle out = [[Block; Block]; [Block; Block]].
Proof.
  destruct (proj2 (proj1 (dimensions_not_checked Examples.shortDoc Examples.nytRoot)))
    as [out Hout]; [constructor|].
  exists out. split; [exact Hout|].
  vm_compute in Hout. by injection Hout as <-.
Defined.

(** C6. In a document the converter returns, the cell at [(row, col)]
    comes from the record at flat index [row * width + col]: with no record
    there, or a record without a solution letter, both grids hold ['#'];
    otherwise the solution grid holds the letter as it is and the puzzle
    grid holds [parseInt] of the label, or 0 when the record has no label.
    [parseInt] gives a double: the label that is the numeral of [n] is shown
    as the double nearest to [n], which is [n] itself up to [2^53], while
    the label [9007199254740993] is shown as [9007199254740992].
    The four cells of the scenario give the puzzle grid [[1,0],['#',2]] and
    the solution grid [["A","B"],["#","C"]]: the block is at index 2. *)
Theorem labeled_cells_mapped :
  (∀ pd rd out, convertToIPUZ pd rd = Ok out →
     ∀ row col, row < height (dimensions pd) → col < width (dimensions pd) →
       let p := puzzle out !! row ≫= (.!! col) in
       let s := solution out !! row ≫= (.!! col) in
       match cells pd !! (row * width (dimensions pd) + col) ≫= id with
       | Some {| answer := Some (String a rest); label := lb |} =>
           s = Some (String a rest)
           ∧ p = Some match lb with
                      | Some (String b l) => Val (parseInt (String b l))
                      | _ => Num 0
                      end
       | _ => p = Some Block ∧ s = Some "#"
       end)
  ∧ (∀ n, parseInt (Js.natToString n) = toDouble (Z.of_nat n)
          ∧ ((Z.of_nat n ≤ 2 ^ 53)%Z → parseInt (Js.natToString n) = Int (Z.of_nat n)))
  ∧ parseInt "9007199254740993" = Int 9007199254740992
  ∧ (∀ rd, ∃ out, convertToIPUZ Examples.labeled rd = Ok out
           ∧ puzzle out = [[Num 1; Num 0]; [Block; Num 2]]
           ∧ solution out = [["A"; "B"]; ["#"; "C"]]).
Proof.
  split; [|split; [|split]].
  - intros pd rd out (_ & -> & ->)%convertToIPUZ_Ok row col Hr Hc.
    destruct (buildGrids_at pd row col Hr Hc) as [-> ->]. cbv zeta.
    unfold cellOut, letterOf.
    destruct (cells pd !! (row * width (dimensions pd) + col) ≫= id)
      as [[[[|a rest]|] [[|b l]|]]|]; by simpl.
  - intros n. split; [apply parseInt_numeral | apply parseInt_numeral_exact].
  - by vm_compute.
  - intros rd. eexists. split; [reflexivity|]. by split.
Qed.

Lemma labeled_cells_mapped_witness :
  (∃ out, convertToIPUZ Examples.labeled Examples.nytRoot = Ok out
          ∧ puzzle out !! 1 ≫= (.!! 0) = Some Block
          ∧ solution out !! 1 ≫= (.!! 0) = Some "#")
  ∧ parseInt (Js.natToString 17) = Int 17.
Proof.
  split.
  - destruct (proj2 (proj2 (proj2 labeled_cells_mapped)) Examples.nytRoot)
      as (out & Hout & _).
    exists out. split; [exact Hout|].
    apply (proj1 labeled_cells_mapped Examples.labeled Examples.nytRoot out Hout 1 0);
      simpl; lia.
  - apply (proj2 (proj1 (proj2 labeled_cells_mapped) 17)). by vm_compute.
Defined.

Lemma inDirection_nil d cs :
  inDirection d cs = [] ↔ d ∉ direction <$> cs.
Proof.
  induction cs as [|c cs IH].
  - split; [intros _; apply not_elem_of_nil|done].
  - rewrite inDirection_cons, fmap_cons, not_elem_of_cons.
    destruct (String.eqb_spec (direction c) d) as [->|Hne]; [split; [done|tauto]|].
    rewrite IH. split; [intros ?; split; [congruence|done]|tauto].
Qed.

(** C8. A clue whose text collection is empty makes the conversion throw,
    so no blank clue is emitted; the exception is the [TypeError] of reading
    [.plain] of [undefined], unless a direction naming an inherited property
    has made [push] fail before.  When every clue has a text variant that
    exception does not occur, and in the document returned each direction
    holds the pairs (label, plain text of the first variant) of its clues in
    source order; the document is returned whenever no direction names an
    inherited property. *)
Theorem empty_text_throws (pd : PuzzleData) (rd : RootData) :
  (Exists (λ c, text c = []) (clues pd) →
     (∃ e, convertToIPUZ pd rd = Throw e)
     ∧ (Forall (λ c, direction c ∉ inheritedNames) (clues pd) →
        convertToIPUZ pd rd = Throw CannotReadPlain))
  ∧ (Forall (λ c, text c ≠ []) (clues pd) →
     convertToIPUZ pd rd ≠ Throw CannotReadPlain
     ∧ (∀ out d, convertToIPUZ pd rd = Ok out →
          default [] (outClues out !! d) = cluePair <$> inDirection d (clues pd))
     ∧ (Forall (λ c, direction c ∉ inheritedNames) (clues pd) →
        ∃ out, convertToIPUZ pd rd = Ok out)).
Proof.
  split.
  - intros Hex.
    assert (∃ e, convertToIPUZ pd rd = Throw e) as [e He].
    { destruct (convertToIPUZ pd rd) as [out|e] eqn:E; [|by eauto].
      assert (Forall acceptable (clues pd)) as Hall
        by (apply (convertToIPUZ_succeeds pd rd); eauto).
      apply Exists_exists in Hex as (c & Hc & Ht).
      rewrite Forall_forall in Hall. by destruct (Hall c Hc). }
    split; [by eauto|]. intros Hdir. rewrite He. f_equal.
    destruct e; [done|].
    apply convertToIPUZ_Throw, forEach_addClue_Throw in He.
    apply Exists_exists in He as (c & Hc & Hin).
    rewrite Forall_forall in Hdir. by destruct (Hdir c Hc).
  - intros Htext. split; [|split].
    + intros He. apply convertToIPUZ_Throw, forEach_addClue_Throw in He.
      apply Exists_exists in He as (c & Hc & Ht).
      rewrite Forall_forall in Htext. by destruct (Htext c Hc).
    + intros out d Hout. rewrite (convertToIPUZ_clues pd rd out d Hout).
      by destruct (inDirection d (clues pd)).
    + intros Hdir. apply convertToIPUZ_succeeds.
      rewrite Forall_forall in Htext, Hdir |- *. intros c Hc. split; eauto.
Qed.

Lemma empty_text_throws_witness :
  Exists (λ c, text c = []) (clues Examples.blankClueDoc)
  ∧ convertToIPUZ Examples.blankClueDoc Examples.nytRoot = Throw CannotReadPlain.
Proof.
  assert (Exists (λ c, text c = []) (clues Examples.blankClueDoc)) as Hex
    by (by constructor).
  split; [exact Hex|].
  apply (proj1 (empty_text_throws Examples.blankClueDoc Examples.nytRoot) Hex).
  repeat constructor. vm_compute. intros H.
  repeat (apply elem_of_cons in H as [H|H]; [discriminate H|]).
  by apply elem_of_nil in H.
Defined.

(** C10. The clues of a returned document have exactly the direction
    strings of the source clue list as keys, each as it is written there,
    and under each key the pairs of the clues of that direction in source
    order; no across or down list is made up.  With an empty clue list the
    conversion succeeds and the clues object is empty.  A document is
    returned whenever every clue has a text variant and no direction names
    an inherited property. *)
Theorem clue_keys_are_directions (pd : PuzzleData) (rd : RootData) :
  (∀ out, convertToIPUZ pd rd = Ok out →
     dom (outClues out) = list_to_set (direction <$> clues pd)
     ∧ ∀ c, c ∈ clues pd →
         outClues out !! direction c
         = Some (cluePair <$> inDirection (direction c) (clues pd)))
  ∧ (clues pd = [] →
     ∃ out, convertToIPUZ pd rd = Ok out ∧ outClues out = ∅
            ∧ outClues out !! "across" = None ∧ outClues out !! "down" = None)
  ∧ (Forall acceptable (clues pd) → ∃ out, convertToIPUZ pd rd = Ok out).
Proof.
  split; [|split].
  - intros out Hout. split.
    + apply set_eq. intros d.
      rewrite elem_of_dom, (convertToIPUZ_clues pd rd out d Hout), elem_of_list_to_set.
      destruct (inDirection d (clues pd)) as [|c l] eqn:E.
      * apply inDirection_nil in E. split; [by intros [? ?]|done].
      * split; [|by eauto]. intros _.
        destruct (decide (d ∈ direction <$> clues pd)) as [|Hn]; [done|].
        apply inDirection_nil in Hn. congruence.
    + intros c Hc. rewrite (convertToIPUZ_clues pd rd out _ Hout).
      destruct (inDirection (direction c) (clues pd)) as [|c' l] eqn:E; [|done].
      apply inDirection_nil in E. destruct E. by apply list_elem_of_fmap_2.
  - intros Hnil. unfold convertToIPUZ. rewrite Hnil. simpl.
    eexists. split; [reflexivity|]. by simpl.
  - apply convertToIPUZ_succeeds.
Qed.

Lemma clue_keys_are_directions_witness :
  ∃ out, convertToIPUZ Examples.unsortedDoc Examples.nytRoot = Ok out
         ∧ dom (outClues out) = {["Across"; "Down"]}.
Proof.
  destruct (proj2 (proj2 (clue_keys_are_directions Examples.unsortedDoc Examples.nytRoot)))
    as [out Hout].
  { repeat constructor; try done; vm_compute; intros H;
      repeat (apply elem_of_cons in H as [H|H]; [discriminate H|]);
      by apply elem_of_nil in H. }
  exists out. split; [exact Hout|].
  rewrite (proj1 (proj1 (clue_keys_are_directions Examples.unsortedDoc Examples.nytRoot)
                    out Hout)).
  apply set_eq. intros d. simpl. set_solver.
Defined.
End NytClaims.

(** ** Order of the clue lists *)

Section ClueOrder.
Import Spec.

Lemma format_pair (e : Smh.ClueEntry) :
  Smh.format e = (Js.natToString (Smh.number e), Smh.clue e).
Proof. unfold Smh.format, Js.orElse. by destruct (Smh.clue e). Qed.

Lemma ascending_format (l : list Smh.ClueEntry) :
  sortedBy Smh.number l → ascending (Smh.format <$> l).
Proof.
  intros Hs. exists (Smh.number <$> l). split.
  - rewrite <- !list_fmap_compose. apply list_fmap_ext. intros _ e _.
    change (Js.toNumber (Smh.format e).1 = Some (Smh.number e)).
    rewrite format_pair. apply toNumber_natToString.
  - unfold sortedBy in Hs. induction Hs as [|e l Hs IH Hall]; simpl; constructor.
    + exact IH.
    + by apply Forall_fmap.
Qed.

(** C3, as stated: the labeled-cell converter leaves the clues of a
    direction in source order, here 2 before 1. *)
Lemma clue_lists_order_counterexample :
  ∃ out l, Nyt.convertToIPUZ Examples.unsortedDoc Examples.nytRoot = Nyt.Ok out
           ∧ Nyt.outClues out !! "Across" = Some l
           ∧ ¬ ascending l.
Proof.
  eexists _, [("2", "second"); ("1", "first")].
  split; [reflexivity|]. split; [by vm_compute|].
  intros (ns & Hns & Hs). destruct ns as [|a [|b [|c ns]]]; try discriminate Hns.
  vm_compute in Hns. injection Hns as <- <-.
  apply StronglySorted_inv in Hs as [_ Hs].
  apply Forall_inv in Hs. lia.
Qed.

(** C3, amended.  The grid-string converter emits each clue list sorted
    ascending by entry number, by a stable sort of the list it assembled,
    each entry as the pair (number as a decimal string, text).  The
    labeled-cell converter does not sort: under each direction it emits the
    pairs (label as given, plain text of the first variant) in source
    order. *)
Theorem clue_lists_order :
  (∀ today p,
     let cl := Smh.secondPass (Smh.game p)
                 (Smh.cellMap (Smh.numbered (Smh.firstPass (Smh.grid (Smh.game p))))) in
     let out := Smh.convertSMHToIPUZ today p in
     ∃ sa sd,
       Smh.across out = (λ e, (Js.natToString (Smh.number e), Smh.clue e)) <$> sa
       ∧ Smh.down out = (λ e, (Js.natToString (Smh.number e), Smh.clue e)) <$> sd
       ∧ sortedBy Smh.number sa ∧ sa ≡ₚ cl.1 ∧ stableFor Smh.number cl.1 sa
       ∧ sortedBy Smh.number sd ∧ sd ≡ₚ cl.2 ∧ stableFor Smh.number cl.2 sd
       ∧ ascending (Smh.across out) ∧ ascending (Smh.down out))
  ∧ (∀ pd rd out d,
       Nyt.convertToIPUZ pd rd = Nyt.Ok out →
       default [] (Nyt.outClues out !! d) = cluePair <$> inDirection d (Nyt.clues pd)).
Proof.
  split.
  - intros today p cl out.
    exists (Js.sortBy Smh.number cl.1), (Js.sortBy Smh.number cl.2).
    subst out. unfold Smh.convertSMHToIPUZ. cbn [Smh.across Smh.down]. fold cl.
    repeat split;
      try (apply list_fmap_ext; intros _ e _; apply format_pair);
      try apply sortBy_sorted; try apply sortBy_perm; try apply sortBy_stable;
      apply ascending_format, sortBy_sorted.
  - intros pd rd out d Hout. rewrite (convertToIPUZ_clues pd rd out d Hout).
    by destruct (inDirection d (Nyt.clues pd)).
Qed.

Lemma clue_lists_order_witness :
  ∃ out, Nyt.convertToIPUZ Examples.unsortedDoc Examples.nytRoot = Nyt.Ok out
         ∧ default [] (Nyt.outClues out !! "Across") = [("2", "second"); ("1", "first")].
Proof.
  eexists. split; [reflexivity|].
  exact (proj2 clue_lists_order Examples.unsortedDoc Examples.nytRoot _ "Across" eq_refl).
Defined.
End ClueOrder.

(** ** The clock *)

Section Clock.

(** With a date in the source document the clock is not consulted: the
    document is the same whatever the clock reads. *)
Lemma date_from_source today1 today2 p :
  Js.truthy (Smh.srcDate p) = true →
  Smh.convertSMHToIPUZ today1 p = Smh.convertSMHToIPUZ today2 p.
Proof.
  intros Hd. unfold Smh.convertSMHToIPUZ, Js.orElse.
  rewrite Hd. by destruct (Smh.srcDate p).
Qed.

(** Without a date in the source the document carries the clock reading. *)
Lemma date_falls_back_to_clock today p :
  Js.truthy (Smh.srcDate p) = false →
  Smh.date (Smh.convertSMHToIPUZ today p) = today.
Proof. intros Hd. unfold Smh.convertSMHToIPUZ, Js.orElse. simpl. by rewrite Hd. Qed.
End Clock.

(** * Further properties *)

(** ** Grids of the grid-string converter *)

Section SmhGrids.
Import Smh Spec Terms.

Lemma concat_rows {B} (f : nat * nat → B) w h :
  concat ((λ y, (λ x, f (x, y)) <$> seq 0 w) <$> seq 0 h) = f <$> rowMajor w h.
Proof.
  unfold rowMajor, rowOf. induction h as [|h IH]; [done|].
  rewrite seq_S, !fmap_app, !concat_app, IH. simpl.
  by rewrite !app_nil_r, fmap_app, <- list_fmap_compose.
Qed.

Lemma cellMap_length g :
  length (cellMap (numbered (firstPass g)))
  = length (List.filter (numberedCell g) (rowMajor (gridWidth g) (gridHeight g))).
Proof.
  rewrite <- (length_fmap snd), firstPass_numbers. apply length_seq.
Qed.

(** Both grids have [height] rows of [width] cells, whatever the lengths of
    the source rows, and the dimensions of the document say so. *)
Theorem smh_grids_shape (today : string) (p : Puzzle) :
  let out := convertSMHToIPUZ today p in
  length (puzzle out) = height (dimensions out)
  ∧ length (solution out) = height (dimensions out)
  ∧ Forall (λ r, length r = width (dimensions out)) (puzzle out)
  ∧ Forall (λ r, length r = width (dimensions out)) (solution out)
  ∧ width (dimensions out) = gridWidth (grid (game p))
  ∧ height (dimensions out) = length (grid (game p)).
Proof.
  cbv zeta. unfold convertSMHToIPUZ. cbn [puzzle solution dimensions width height].
  rewrite firstPass_puzzleRows, firstPass_solutionRows, !length_fmap, !length_seq.
  repeat split; try done;
    apply Forall_fmap, Forall_forall; intros y _; simpl;
    by rewrite length_fmap, length_seq.
Qed.

Lemma shownNumber_row g y k :
  omap shownNumber ((λ x, puzzleCellAt g (x, y)) <$> seq 0 k)
  = seq (1 + length (List.filter (numberedCell g) (rowMajor (gridWidth g) y)))
        (length (List.filter (numberedCell g) (rowOf k y))).
Proof.
  induction k as [|k IH]; [done|].
  rewrite seq_S, fmap_app, omap_app, IH, rowOf_S, List.filter_app, length_app, seq_app.
  f_equal. cbn [fmap list_fmap omap list_omap List.filter Nat.add].
  unfold puzzleCellAt. cbn [fst snd]. rewrite numberAt_split.
  assert (numberedCell g (k, y)
          = negb (isBlock (cellAt g y k))
            && (isAcrossStart g k y || isDownStart g k y)) as -> by done.
  destruct (isBlock (cellAt g y k)); [done|]. cbn [negb andb].
  destruct (isAcrossStart g k y || isDownStart g k y); [|done].
  done.
Qed.

Lemma shownNumber_rows g j :
  omap shownNumber
    (concat ((λ y, (λ x, puzzleCellAt g (x, y)) <$> seq 0 (gridWidth g)) <$> seq 0 j))
  = seq 1 (length (List.filter (numberedCell g) (rowMajor (gridWidth g) j))).
Proof.
  induction j as [|j IH]; [done|].
  rewrite seq_S, fmap_app, concat_app, omap_app, IH. cbn [fmap list_fmap concat].
  rewrite app_nil_r, shownNumber_row, rowMajor_S, List.filter_app, length_app, seq_app.
  done.
Qed.

(** Read row by row, the numbers other than 0 in the puzzle grid are
    1, 2, 3, ... up to the size of the numbering map: no number is skipped or
    shown twice, also on a grid whose rows differ in length. *)
Theorem puzzle_numbers_consecutive (today : string) (p : Puzzle) :
  omap shownNumber (concat (puzzle (convertSMHToIPUZ today p)))
  = seq 1 (length (cellMap (numbered (firstPass (grid (game p)))))).
Proof.
  unfold convertSMHToIPUZ. cbn [puzzle].
  by rewrite firstPass_puzzleRows, shownNumber_rows, cellMap_length.
Qed.

Lemma restore_solutionCellAt g x y a :
  cellAt g y x = Some a → a ≠ "#"%char →
  restoreCell (solutionCellAt g (x, y)) = Some a.
Proof.
  intros Ha Hh. unfold solutionCellAt, restoreCell. cbn [fst snd].
  rewrite Ha. simpl. destruct (Ascii.eqb_spec a ".") as [->|_]; [done|].
  by destruct (Ascii.eqb_spec a "#").
Qed.

(** A block of the source is a block in both grids and every other cell
    keeps its character in the solution grid.  So on a rectangular grid
    that does not use ['#'] as a letter, writing ['.'] for each ['#'] of the
    solution grid gives the source grid back. *)
Theorem smh_solution_restores (today : string) (p : Puzzle) :
  let g := grid (game p) in
  let out := convertSMHToIPUZ today p in
  (∀ x y, x < gridWidth g → y < gridHeight g →
     solution out !! y ≫= (.!! x)
       = Some (if isBlock (cellAt g y x) then Some "#"%char else cellAt g y x)
     ∧ (puzzle out !! y ≫= (.!! x) = Some Block ↔ isBlock (cellAt g y x) = true))
  ∧ (rectangular g → noHash g →
     fmap (M:=list) restoreCell <$> solution out = fmap (M:=list) Some <$> g).
Proof.
  intros g out. subst out. unfold convertSMHToIPUZ. cbn [puzzle solution]. fold g.
  split.
  - intros x y Hx Hy. rewrite firstPass_solution_at, firstPass_puzzle_at by done.
    split; [done|]. unfold puzzleCellAt. cbn [fst snd].
    destruct (isBlock (cellAt g y x)); [done|].
    destruct (numberedCell g (x, y)); split; intros; done.
  - intros Hrect Hhash. rewrite firstPass_solutionRows.
    apply list_eq. intros y. rewrite !list_lookup_fmap.
    change (@lookup nat (list ascii) (list (list ascii)) _ y g) with (g !! y).
    destruct (g !! y) as [r|] eqn:Hr; simpl.
    + assert (y < gridHeight g) as Hy by (by eapply lookup_lt_Some).
      rewrite lookup_seq_lt by done. simpl. f_equal.
      assert (length r = gridWidth g) as Hlen.
      { unfold rectangular in Hrect. rewrite Forall_forall in Hrect.
        apply Hrect. by eapply list_elem_of_lookup_2. }
      apply list_eq. intros x. rewrite !list_lookup_fmap.
      change (@lookup nat ascii (list ascii) _ x r) with (r !! x).
      destruct (r !! x) as [a|] eqn:Ha; simpl.
      * assert (x < gridWidth g) as Hx by (rewrite <- Hlen; by eapply lookup_lt_Some).
        rewrite lookup_seq_lt by done. simpl. f_equal.
        apply restore_solutionCellAt; [unfold cellAt; by rewrite Hr|].
        unfold noHash in Hhash. rewrite Forall_forall in Hhash.
        specialize (Hhash r ltac:(by eapply list_elem_of_lookup_2)).
        rewrite Forall_forall in Hhash. apply Hhash. by eapply list_elem_of_lookup_2.
      * apply lookup_ge_None in Ha. rewrite lookup_seq_ge by lia. done.
    + apply lookup_ge_None in Hr. rewrite lookup_seq_ge; [done|]. unfold gridHeight. lia.
Qed.

Lemma smh_solution_restores_witness :
  fmap (M:=list) restoreCell <$> solution (convertSMHToIPUZ "2025-10-08" Examples.catDot)
  = fmap (M:=list) Some <$> grid (game Examples.catDot).
Proof.
  apply (proj2 (smh_solution_restores "2025-10-08" Examples.catDot));
    repeat constructor; discriminate.
Defined.
End SmhGrids.

(** ** The fallback clue lists *)

Section Inferred.
Import Smh Spec Terms.

Lemma pushWord_app cm x y word out :
  pushWord cm x y word out = out ++ pushWord cm x y word [].
Proof.
  unfold pushWord. destruct (1 <? String.length word); [|by rewrite app_nil_r].
  destruct (Js.objGet (coordKey x y) cm) as [n|]; [|by rewrite app_nil_r].
  destruct (n =? 0); [by rewrite app_nil_r|done].
Qed.

Lemma inferCell_pushes g cm y acc x :
  inferCell g cm y acc x = (acc.1 ++ acrossAt g cm (x, y), acc.2 ++ downAt g cm (x, y)).
Proof.
  unfold inferCell, acrossAt, downAt. cbn [fst snd]. destruct acc as [a d].
  destruct (isBlock (cellAt g y x)); [by rewrite !app_nil_r|]. cbn [fst snd].
  destruct ((x =? 0) || isBlock (cellAt g y (x - 1)));
    destruct ((y =? 0) || isBlock (cellAt g (y - 1) x)); cbn [fst snd];
    rewrite ?app_nil_r, ?(pushWord_app _ _ _ _ a), ?(pushWord_app _ _ _ _ d); done.
Qed.

Lemma push_lists_loop {X B C} (f : X → list B) (h : X → list C)
    (l : list X) (acc : list B * list C) :
  fold_left (λ acc x, (acc.1 ++ f x, acc.2 ++ h x)) l acc
  = (acc.1 ++ concat (f <$> l), acc.2 ++ concat (h <$> l)).
Proof.
  revert acc. induction l as [|x l IH]; intros [a b]; simpl.
  - by rewrite !app_nil_r.
  - rewrite IH. simpl. by rewrite <- !app_assoc.
Qed.

Lemma fold_left_pointwise {X S} (f h : S → X → S) (l : list X) (acc : S) :
  (∀ a x, f a x = h a x) → fold_left f l acc = fold_left h l acc.
Proof.
  intros Hfh. revert acc. induction l as [|x l IH]; intros acc; simpl; [done|].
  by rewrite Hfh, IH.
Qed.

Lemma inferRow_pushes g cm acc y :
  inferRow g cm acc y
  = (acc.1 ++ concat (acrossAt g cm <$> rowOf (gridWidth g) y),
     acc.2 ++ concat (downAt g cm <$> rowOf (gridWidth g) y)).
Proof.
  unfold inferRow, rowOf. rewrite <- !list_fmap_compose.
  rewrite <- (push_lists_loop (λ x, acrossAt g cm (x, y)) (λ x, downAt g cm (x, y))).
  apply fold_left_pointwise. intros a x. apply inferCell_pushes.
Qed.

Lemma concat_nested {X Y B} (f : X → list B) (k : Y → list X) (ys : list Y) :
  concat ((λ y, concat (f <$> k y)) <$> ys) = concat (f <$> concat (k <$> ys)).
Proof.
  induction ys as [|y ys IH]; [done|].
  rewrite !fmap_cons. cbn [concat]. by rewrite fmap_app, concat_app, IH.
Qed.

(** The loops of the fallback visit the cells in scan order. *)
Lemma inferred_pushes g cm :
  inferred g cm
  = (concat (acrossAt g cm <$> rowMajor (gridWidth g) (gridHeight g)),
     concat (downAt g cm <$> rowMajor (gridWidth g) (gridHeight g))).
Proof.
  unfold inferred, rowMajor.
  rewrite (fold_left_pointwise _ (λ acc y,
    (acc.1 ++ concat (acrossAt g cm <$> rowOf (gridWidth g) y),
     acc.2 ++ concat (downAt g cm <$> rowOf (gridWidth g) y))))
    by (intros; apply inferRow_pushes).
  rewrite push_lists_loop. cbn [fst snd app].
  by rewrite !concat_nested.
Qed.

Lemma lookup_seq_drop {B} (l : list B) x :
  (λ i, l !! i) <$> seq x (length l - x) = Some <$> drop x l.
Proof.
  revert x. induction l as [|b l IH]; intros x; [by destruct x|].
  destruct x as [|x].
  - specialize (IH 0). rewrite Nat.sub_0_r, drop_0 in IH.
    cbn [length Nat.sub drop seq]. rewrite !fmap_cons, <- IH.
    by rewrite <- fmap_S_seq, <- list_fmap_compose.
  - cbn [length Nat.sub drop]. rewrite <- IH.
    by rewrite <- fmap_S_seq, <- list_fmap_compose.
Qed.

Lemma length_string_of_list (l : list ascii) :
  String.length (string_of_list_ascii l) = length l.
Proof. induction l as [|a l IH]; simpl; congruence. Qed.

Lemma takeWord_run cells acc :
  takeWord (Some <$> cells) acc = acc +:+ string_of_list_ascii (letterRun cells).
Proof.
  revert acc. induction cells as [|a cells IH]; intros acc; simpl.
  - by rewrite string_app_nil_r.
  - destruct (Ascii.eqb a "."); simpl; [by rewrite string_app_nil_r|].
    rewrite IH, string_app_assoc. done.
Qed.

Lemma concat_singletons {X B} (P : X → bool) (f : X → B) (F : X → list B) (l : list X) :
  (∀ c, c ∈ l → F c = if P c then [f c] else []) →
  concat (F <$> l) = f <$> List.filter P l.
Proof.
  induction l as [|c l IH]; intros HF; [done|].
  rewrite fmap_cons. cbn [concat List.filter].
  rewrite (HF c) by (apply elem_of_cons; by left).
  rewrite IH by (intros c' Hc'; apply HF; apply elem_of_cons; by right).
  by destruct (P c).
Qed.

Lemma lookup_rows (l : list (list ascii)) x :
  Forall (λ r, x < length r) l →
  (λ r : list ascii, r !! x) <$> l = Some <$> omap (.!! x) l.
Proof.
  induction 1 as [|r l Hr Hl IH]; [done|]. simpl.
  destruct (r !! x) as [a|] eqn:Ha; [simpl; f_equal; exact IH|].
  apply lookup_ge_None in Ha. lia.
Qed.

(** A run of letters is longer than one cell exactly when the next cell
    exists and is a letter. *)
Lemma run_long (l : list ascii) i a :
  l !! i = Some a → Ascii.eqb a "." = false →
  (1 <? length (letterRun (drop i l)))
  = (i <? length l - 1) && negb (isBlock (l !! (i + 1))).
Proof.
  intros Hi Ha. rewrite (drop_S _ _ _ Hi). simpl. rewrite Ha. simpl.
  rewrite Nat.add_1_r. apply lookup_lt_Some in Hi as Hlt.
  destruct (l !! S i) as [b|] eqn:Hb.
  - rewrite (drop_S _ _ _ Hb). simpl. apply lookup_lt_Some in Hb.
    destruct (Nat.ltb_spec i (length l - 1)); [|lia].
    by destruct (Ascii.eqb b ".").
  - apply lookup_ge_None in Hb. rewrite drop_ge by done. simpl.
    destruct (Nat.ltb_spec i (length l - 1)); [lia|done].
Qed.
End Inferred.

Section InferredRectangular.
Import Smh Spec Terms.
Variable g : Grid.
Hypothesis Hrect : rectangular g.

Lemma row_length y r : g !! y = Some r → length r = gridWidth g.
Proof.
  intros Hr. unfold rectangular in Hrect. rewrite Forall_forall in Hrect.
  apply Hrect. by eapply list_elem_of_lookup_2.
Qed.

Lemma cellAt_row y r x : g !! y = Some r → cellAt g y x = r !! x.
Proof.
  intros Hr. unfold cellAt. unfold Grid, Row in Hr |- *. by rewrite Hr.
Qed.

Lemma acrossWord_run x y :
  y < gridHeight g →
  acrossWord g x y = string_of_list_ascii (letterRun (restOfRow g (x, y))).
Proof.
  intros Hy. unfold acrossWord, restOfRow. cbn [fst snd].
  destruct (g !! y) as [r|] eqn:Hr.
  - rewrite <- (row_length y r Hr).
    rewrite (list_fmap_ext (cellAt g y) (λ i, r !! i)).
    + by rewrite lookup_seq_drop, takeWord_run.
    + intros _ i _. by apply cellAt_row.
  - apply lookup_ge_None in Hr. unfold gridHeight, Grid, Row in Hr, Hy. lia.
Qed.

Lemma column_lookup x :
  x < gridWidth g → (λ r : list ascii, r !! x) <$> g = Some <$> column g x.
Proof.
  intros Hx. apply lookup_rows. eapply Forall_impl; [exact Hrect|].
  intros r Hr. simpl in Hr. lia.
Qed.

Lemma column_length x : x < gridWidth g → length (column g x) = gridHeight g.
Proof.
  intros Hx. rewrite <- (length_fmap Some), <- column_lookup by done.
  by rewrite length_fmap.
Qed.

Lemma cellAt_column x y : x < gridWidth g → cellAt g y x = column g x !! y.
Proof.
  intros Hx. unfold cellAt.
  assert (column g x !! y = (Some <$> column g x) !! y ≫= id) as ->.
  { rewrite list_lookup_fmap. by destruct (column g x !! y). }
  rewrite <- column_lookup, list_lookup_fmap by done.
  unfold Grid, Row.
  by destruct (@lookup nat (list ascii) (list (list ascii)) _ y g).
Qed.

Lemma downWord_run x y :
  x < gridWidth g →
  downWord g x y = string_of_list_ascii (letterRun (restOfColumn g (x, y))).
Proof.
  intros Hx. unfold downWord, restOfColumn. cbn [fst snd].
  rewrite <- (column_length x Hx).
  rewrite (list_fmap_ext (λ wordY, cellAt g wordY x) (λ i, column g x !! i)).
  - by rewrite lookup_seq_drop, takeWord_run.
  - intros _ i _. by apply cellAt_column.
Qed.

Let cm := cellMap (numbered (firstPass g)).

Lemma mapNumber_numbered c :
  c.1 < gridWidth g → c.2 < gridHeight g → numberedCell g c = true →
  Js.objGet (coordKey c.1 c.2) cm = Some (numberAt g c).
Proof.
  intros Hx Hy Hp. subst cm. rewrite firstPass_lookup.
  apply Nat.ltb_lt in Hx, Hy. destruct c. simpl in *. by rewrite Hx, Hy, Hp.
Qed.

Lemma acrossAt_start c :
  c.1 < gridWidth g → c.2 < gridHeight g →
  acrossAt g cm c
  = if startsAcross g c.1 c.2
    then [wordEntry (mapNumber cm c) (letterRun (restOfRow g c)) c] else [].
Proof.
  destruct c as [x y]. cbn [fst snd]. intros Hx Hy.
  rewrite <- (isAcrossStart_spec g Hrect x y Hx Hy).
  unfold acrossAt. cbn [fst snd].
  destruct (isBlock (cellAt g y x)) eqn:Hb; [done|]. cbn [negb andb].
  destruct (cellAt_inside g Hrect x y Hx Hy) as [a Ha].
  assert (∃ r, g !! y = Some r ∧ r !! x = Some a) as (r & Hr & Hra).
  { unfold cellAt in Ha. unfold Grid, Row in *.
    destruct (@lookup nat (list ascii) (list (list ascii)) _ y g) as [r|]; [by eauto|done]. }
  assert ((1 <? String.length (acrossWord g x y))
          = (x <? gridWidth g - 1) && negb (isBlock (cellAt g y (x + 1)))) as Hlong.
  { rewrite acrossWord_run, length_string_of_list by done.
    unfold restOfRow. cbn [fst snd]. unfold Grid, Row in *. rewrite Hr. cbn [from_option id].
    rewrite (run_long r x a Hra), (row_length y r Hr), (cellAt_row y r (x + 1) Hr); [done|].
    rewrite Ha in Hb. simpl in Hb. done. }
  unfold isAcrossStart.
  destruct ((x =? 0) || isBlock (cellAt g y (x - 1))) eqn:Hleft; [|done]. cbn [andb].
  unfold pushWord. rewrite Hlong.
  destruct ((x <? gridWidth g - 1) && negb (isBlock (cellAt g y (x + 1)))) eqn:Hright;
    [|done].
  assert (numberedCell g (x, y) = true) as Hp.
  { unfold numberedCell, isAcrossStart. cbn [fst snd]. by rewrite Hb, Hleft, Hright. }
  unfold mapNumber. cbn [fst snd].
  pose proof (mapNumber_numbered (x, y) Hx Hy Hp) as Hn. cbn [fst snd] in Hn.
  rewrite Hn. cbn [from_option id].
  unfold numberAt at 1. cbn [Nat.add Nat.eqb].
  unfold wordEntry. cbn [fst snd]. by rewrite acrossWord_run.
Qed.

Lemma downAt_start c :
  c.1 < gridWidth g → c.2 < gridHeight g →
  downAt g cm c
  = if startsDown g c.1 c.2
    then [wordEntry (mapNumber cm c) (letterRun (restOfColumn g c)) c] else [].
Proof.
  destruct c as [x y]. cbn [fst snd]. intros Hx Hy.
  rewrite <- (isDownStart_spec g Hrect x y Hx Hy).
  unfold downAt. cbn [fst snd].
  destruct (isBlock (cellAt g y x)) eqn:Hb; [done|]. cbn [negb andb].
  destruct (cellAt_inside g Hrect x y Hx Hy) as [a Ha].
  assert ((1 <? String.length (downWord g x y))
          = (y <? gridHeight g - 1) && negb (isBlock (cellAt g (y + 1) x))) as Hlong.
  { rewrite downWord_run, length_string_of_list by done.
    unfold restOfColumn. cbn [fst snd].
    rewrite (run_long (column g x) y a), (column_length x Hx), (cellAt_column x (y + 1) Hx);
      [done|by rewrite <- cellAt_column|].
    rewrite Ha in Hb. simpl in Hb. done. }
  unfold isDownStart.
  destruct ((y =? 0) || isBlock (cellAt g (y - 1) x)) eqn:Hup; [|done]. cbn [andb].
  unfold pushWord. rewrite Hlong.
  destruct ((y <? gridHeight g - 1) && negb (isBlock (cellAt g (y + 1) x))) eqn:Hlow;
    [|done].
  assert (numberedCell g (x, y) = true) as Hp.
  { unfold numberedCell, isDownStart. cbn [fst snd].
    rewrite Hb, Hup, Hlow. cbn. by rewrite orb_true_r. }
  unfold mapNumber. cbn [fst snd].
  pose proof (mapNumber_numbered (x, y) Hx Hy Hp) as Hn. cbn [fst snd] in Hn.
  rewrite Hn. cbn [from_option id].
  unfold numberAt at 1. cbn [Nat.add Nat.eqb].
  unfold wordEntry. cbn [fst snd]. by rewrite downWord_run.
Qed.
End InferredRectangular.

Section InferredLists.
Import Smh Spec Terms.

Lemma StronglySorted_append {X} (R : relation X) (l1 l2 : list X) :
  StronglySorted R l1 → StronglySorted R l2 →
  (∀ a b, a ∈ l1 → b ∈ l2 → R a b) →
  StronglySorted R (l1 ++ l2).
Proof.
  induction 1 as [|a l1 Hl IH Ha]; intros H2 Hcross; [done|]. simpl.
  constructor.
  - apply IH; [done|]. intros b c Hb Hc. apply Hcross; [|done].
    apply elem_of_cons. by right.
  - apply Forall_app. split; [done|]. apply Forall_forall. intros b Hb.
    apply Hcross; [|done]. apply elem_of_cons. by left.
Qed.

Lemma rowOf_sorted w y : StronglySorted scannedBefore (rowOf w y).
Proof.
  induction w as [|w IH]; [constructor|].
  rewrite rowOf_S. apply StronglySorted_append; [done|by repeat constructor|].
  intros c1 c2 Hc1%elem_of_rowOf Hc2%list_elem_of_singleton. subst c2.
  right. simpl. lia.
Qed.

Lemma rowMajor_sorted w h : StronglySorted scannedBefore (rowMajor w h).
Proof.
  induction h as [|h IH]; [constructor|].
  rewrite rowMajor_S. apply StronglySorted_append; [done|apply rowOf_sorted|].
  intros c1 c2 Hc1%elem_of_rowMajor Hc2%elem_of_rowOf. left. lia.
Qed.

Lemma StronglySorted_filter {X} (R : relation X) (P : X → bool) l :
  StronglySorted R l → StronglySorted R (List.filter P l).
Proof.
  induction 1 as [|a l Hl IH Ha]; [constructor|]. simpl.
  destruct (P a); [|done]. constructor; [done|].
  rewrite Forall_forall in Ha |- *.
  intros b Hb%list_elem_of_In%List.filter_In. apply Ha, list_elem_of_In, Hb.
Qed.

Lemma sortedBy_fmap {X B} (R : relation X) (key : B → nat) (f : X → B) l :
  StronglySorted R l →
  (∀ a b, a ∈ l → b ∈ l → R a b → key (f a) ≤ key (f b)) →
  sortedBy key (f <$> l).
Proof.
  unfold sortedBy. induction 1 as [|a l Hl IH Ha]; intros Hmono; [constructor|].
  rewrite fmap_cons. constructor.
  - apply IH. intros b c Hb Hc. apply Hmono; apply elem_of_cons; by right.
  - apply Forall_fmap. rewrite Forall_forall in Ha |- *. intros b Hb. simpl.
    apply Hmono; [apply elem_of_cons; by left|apply elem_of_cons; by right|by apply Ha].
Qed.

Lemma sortBy_sorted_id {B} (key : B → nat) (l : list B) :
  sortedBy key l → Js.sortBy key l = l.
Proof.
  unfold sortedBy. induction 1 as [|a l Hl IH Ha]; [done|].
  cbn [Js.sortBy foldr]. fold (Js.sortBy key l). rewrite IH.
  destruct l as [|b l]; [done|]. cbn [Js.insertBy]. rewrite cmp_le.
  apply Forall_inv in Ha. by destruct (Nat.leb_spec (key a) (key b)); [|lia].
Qed.

Variable g : Grid.
Hypothesis Hrect : rectangular g.
Let cm := cellMap (numbered (firstPass g)).

Lemma numbered_of_start c :
  c.1 < gridWidth g → c.2 < gridHeight g →
  startsAcross g c.1 c.2 || startsDown g c.1 c.2 = true →
  mapNumber cm c = numberAt g c ∧ numberedCell g c = true.
Proof.
  intros Hx Hy Hs.
  assert (numberedCell g c = true) as Hp by (by rewrite numberedCell_spec).
  split; [|done]. unfold mapNumber. subst cm.
  rewrite firstPass_lookup. apply Nat.ltb_lt in Hx, Hy.
  destruct c. simpl in *. by rewrite Hx, Hy, Hp.
Qed.

Lemma starts_numbers_sorted (P : nat * nat → bool) (f : nat * nat → ClueEntry) :
  (∀ c, P c = true → startsAcross g c.1 c.2 || startsDown g c.1 c.2 = true) →
  (∀ c, number (f c) = mapNumber cm c) →
  sortedBy number (f <$> List.filter P (rowMajor (gridWidth g) (gridHeight g))).
Proof.
  intros HP Hf.
  apply (sortedBy_fmap scannedBefore); [apply StronglySorted_filter, rowMajor_sorted|].
  intros a b [Ha Pa]%list_elem_of_In%List.filter_In [Hb Pb]%list_elem_of_In%List.filter_In Hab.
  apply list_elem_of_In, elem_of_rowMajor in Ha as [Hax Hay], Hb as [Hbx Hby].
  rewrite !Hf.
  destruct (numbered_of_start a Hax Hay (HP a Pa)) as [-> Hpa].
  destruct (numbered_of_start b Hbx Hby (HP b Pb)) as [-> _].
  apply Nat.lt_le_incl, numberAt_increasing; try done. lia.
Qed.
End InferredLists.

Section InferredClaims.
Import Smh Spec Terms.

Lemma secondPass_inferred (p : Puzzle) :
  let g := grid (game p) in
  let cm := cellMap (numbered (firstPass g)) in
  rectangular g → srcClues (game p) = None →
  secondPass (game p) cm
  = ((λ c, wordEntry (mapNumber cm c) (letterRun (restOfRow g c)) c) <$> acrossStarts g,
     (λ c, wordEntry (mapNumber cm c) (letterRun (restOfColumn g c)) c) <$> downStarts g).
Proof.
  intros g cm Hrect Hnone. unfold secondPass. rewrite Hnone. fold g.
  rewrite inferred_pushes. unfold acrossStarts, downStarts. f_equal.
  - apply (concat_singletons (λ c, startsAcross g c.1 c.2)).
    intros c [Hx Hy]%elem_of_rowMajor. by apply acrossAt_start.
  - apply (concat_singletons (λ c, startsDown g c.1 c.2)).
    intros c [Hx Hy]%elem_of_rowMajor. by apply downAt_start.
Qed.

(** Without clue references in the source and on a rectangular grid, the
    fallback makes one across entry for each cell that starts an across
    word, in scan order, and one down entry for each cell that starts a down
    word.  The entry carries the number the numbering map holds for the
    cell, an empty clue and, as its answer, the letters from the cell up to
    the next block or the edge. *)
Theorem inferred_entries (p : Puzzle) :
  let g := grid (game p) in
  let cm := cellMap (numbered (firstPass g)) in
  rectangular g → srcClues (game p) = None →
  secondPass (game p) cm
  = ((λ c, wordEntry (mapNumber cm c) (letterRun (restOfRow g c)) c) <$> acrossStarts g,
     (λ c, wordEntry (mapNumber cm c) (letterRun (restOfColumn g c)) c) <$> downStarts g).
Proof. apply secondPass_inferred. Qed.

Lemma inferred_entries_witness :
  (secondPass (game Examples.catDot)
     (cellMap (numbered (firstPass (grid (game Examples.catDot)))))).2
  = [ {| number := 2; clue := ""; answer := "AAT"; row := Some 0; col := Some 1 |} ].
Proof.
  rewrite (inferred_entries Examples.catDot); [reflexivity| |reflexivity].
  repeat constructor.
Defined.

(** In that case the clue lists of the document need no reordering: the
    across list is the list of (number, empty text) of the across-start
    cells in scan order, the down list that of the down-start cells, and
    every cell that has a number has its number in one of the two lists. *)
Theorem inferred_clue_lists (today : string) (p : Puzzle) :
  let g := grid (game p) in
  let cm := cellMap (numbered (firstPass g)) in
  let out := convertSMHToIPUZ today p in
  rectangular g → srcClues (game p) = None →
  across out = (λ c, (Js.natToString (mapNumber cm c), "")) <$> acrossStarts g
  ∧ down out = (λ c, (Js.natToString (mapNumber cm c), "")) <$> downStarts g
  ∧ (∀ x y, x < gridWidth g → y < gridHeight g → mapNumber cm (x, y) ≠ 0 →
       (Js.natToString (mapNumber cm (x, y)), "") ∈ across out
       ∨ (Js.natToString (mapNumber cm (x, y)), "") ∈ down out).
Proof.
  intros g cm out Hrect Hnone.
  assert (across out = (λ c, (Js.natToString (mapNumber cm c), "")) <$> acrossStarts g
          ∧ down out = (λ c, (Js.natToString (mapNumber cm c), "")) <$> downStarts g)
    as [Ha Hd].
  { subst out. unfold convertSMHToIPUZ. cbn [across down].
    rewrite (secondPass_inferred p Hrect Hnone). cbn [fst snd]. fold g. fold cm.
    rewrite !sortBy_sorted_id, <- !list_fmap_compose.
    - split; apply list_fmap_ext; intros _ c _; simpl; by rewrite format_pair.
    - apply (starts_numbers_sorted g Hrect (λ c, startsDown g c.1 c.2)); [|done].
      intros c ->. apply orb_true_r.
    - apply (starts_numbers_sorted g Hrect (λ c, startsAcross g c.1 c.2)); [|done].
      by intros c ->. }
  split; [done|]. split; [done|]. intros x y Hx Hy Hn. rewrite Ha, Hd.
  assert (numberedCell g (x, y) = true) as Hp.
  { unfold mapNumber in Hn. subst cm. rewrite firstPass_lookup in Hn.
    cbn [fst snd] in Hn. destruct (numberedCell g (x, y)); [done|].
    by destruct (x <? gridWidth g), (y <? gridHeight g). }
  rewrite (numberedCell_spec g Hrect (x, y) Hx Hy) in Hp.
  apply orb_true_iff in Hp as [Hp|Hp]; [left|right];
    apply (list_elem_of_fmap_2 (λ c, (Js.natToString (mapNumber cm c), "")) _ (x, y));
    apply list_elem_of_In, List.filter_In; (split; [|done]);
    apply list_elem_of_In, elem_of_rowMajor; done.
Qed.

Lemma inferred_clue_lists_witness :
  down (convertSMHToIPUZ "2025-10-08" Examples.catDot) = [("2", "")].
Proof.
  rewrite (proj1 (proj2 (inferred_clue_lists "2025-10-08" Examples.catDot
                           ltac:(repeat constructor) eq_refl))).
  reflexivity.
Defined.
End InferredClaims.

(** ** Numbers of the clue lists *)

Section ClueNumbers.
Import Smh Spec Terms.

Lemma objGet_Some_value {V} k (o : Js.obj V) v :
  Js.objGet k o = Some v → v ∈ o.*2.
Proof.
  induction o as [|[k' v'] o IH]; simpl; [done|].
  destruct (String.eqb k k').
  - intros [= ->]. apply elem_of_cons. by left.
  - intros H. apply elem_of_cons. right. by apply IH.
Qed.

Lemma pushWord_numbers cm x y word :
  Forall (λ e, number e ∈ cm.*2) (pushWord cm x y word []).
Proof.
  unfold pushWord. destruct (1 <? String.length word); [|done].
  destruct (Js.objGet (coordKey x y) cm) as [n|] eqn:Hn; [|done].
  destruct (n =? 0); [done|]. repeat constructor. simpl.
  by eapply objGet_Some_value.
Qed.

Lemma inferred_numbers g cm :
  Forall (λ e, number e ∈ cm.*2) (inferred g cm).1
  ∧ Forall (λ e, number e ∈ cm.*2) (inferred g cm).2.
Proof.
  rewrite inferred_pushes. cbn [fst snd].
  split; apply Forall_concat, Forall_fmap, Forall_forall; intros c _; simpl.
  - unfold acrossAt. repeat case_match; try done; apply pushWord_numbers.
  - unfold downAt. repeat case_match; try done; apply pushWord_numbers.
Qed.

Lemma referenced_numbers cm refs out :
  Forall (λ e, number e ∈ cm.*2) out →
  Forall (λ e, number e ∈ cm.*2) (referenced cm refs out).
Proof.
  destruct refs as [l|]; [|done]. simpl.
  revert out. induction l as [|c l IH]; intros out Hout; [done|]. simpl.
  apply IH. unfold pushRef, findNumber.
  destruct (List.find _ cm) as [[k n]|] eqn:Hf; [|done].
  destruct (parseCoord k) as [cl rw].
  apply Forall_app. split; [done|]. repeat constructor. simpl.
  apply List.find_some in Hf as [Hin _].
  apply (list_elem_of_fmap_2 snd _ (k, n)), list_elem_of_In, Hin.
Qed.

Lemma secondPass_numbers gm cm :
  Forall (λ e, number e ∈ cm.*2) (secondPass gm cm).1
  ∧ Forall (λ e, number e ∈ cm.*2) (secondPass gm cm).2.
Proof.
  unfold secondPass. destruct (srcClues gm) as [cs|].
  - split; by apply referenced_numbers.
  - apply inferred_numbers.
Qed.

Lemma shown_numbers g :
  omap shownNumber (concat (puzzleRows (firstPass g)))
  = (cellMap (numbered (firstPass g))).*2.
Proof. by rewrite firstPass_puzzleRows, shownNumber_rows, firstPass_numbers. Qed.

(** Whatever the grid and whichever way the clue lists are assembled, the
    number at the head of every pair of the across list and of the down
    list is a number shown in a cell of the puzzle grid. *)
Theorem clue_numbers_in_grid (today : string) (p : Puzzle) (pr : string * string) :
  let out := convertSMHToIPUZ today p in
  pr ∈ across out ∨ pr ∈ down out →
  ∃ n, pr.1 = Js.natToString n ∧ n ∈ omap shownNumber (concat (puzzle out)).
Proof.
  intros out. subst out. unfold convertSMHToIPUZ. cbn [across down puzzle].
  rewrite shown_numbers.
  destruct (secondPass_numbers (game p)
              (cellMap (numbered (firstPass (grid (game p)))))) as [Ha Hd].
  intros [Hin|Hin]; apply list_elem_of_fmap in Hin as (e & -> & He);
    exists (number e); (split; [by rewrite format_pair|]);
    rewrite sortBy_perm in He; rewrite Forall_forall in Ha, Hd; eauto.
Qed.

Lemma clue_numbers_in_grid_witness :
  ∃ n, "2" = Js.natToString n
       ∧ n ∈ omap shownNumber
               (concat (puzzle (convertSMHToIPUZ "2025-10-08" Examples.catRefs))).
Proof.
  apply (clue_numbers_in_grid "2025-10-08" Examples.catRefs ("2", "second")).
  left. vm_compute. apply elem_of_cons. right. apply elem_of_cons. by left.
Defined.

Lemma filter_none {X} (P : X → bool) (l : list X) :
  (∀ c, c ∈ l → P c = false) → List.filter P l = [].
Proof.
  induction l as [|c l IH]; intros HP; [done|]. simpl.
  rewrite (HP c) by (apply elem_of_cons; by left).
  apply IH. intros c' Hc'. apply HP, elem_of_cons. by right.
Qed.

Lemma concat_nils {X B} (F : X → list B) (l : list X) :
  (∀ c, F c = []) → concat (F <$> l) = [].
Proof.
  intros HF. induction l as [|c l IH]; [done|].
  rewrite fmap_cons. cbn [concat]. by rewrite HF, IH.
Qed.

(** A grid of blocks only: the numbering map is empty, every cell of both
    grids is ['#'] and both clue lists are empty, with or without clue
    references in the source. *)
Theorem all_blocks_grid (today : string) (p : Puzzle) :
  let g := grid (game p) in
  let out := convertSMHToIPUZ today p in
  allBlocks g →
  cellMap (numbered (firstPass g)) = []
  ∧ Forall (Forall (λ c, c = Block)) (puzzle out)
  ∧ Forall (Forall (λ c, c = Some "#"%char)) (solution out)
  ∧ across out = [] ∧ down out = [].
Proof.
  intros g out Hall.
  assert (cellMap (numbered (firstPass g)) = []) as Hcm.
  { rewrite firstPass_cellMap. unfold assign. rewrite filter_none; [done|].
    intros c [Hx Hy]%elem_of_rowMajor. unfold numberedCell. by rewrite Hall. }
  split; [done|]. subst out. unfold convertSMHToIPUZ.
  cbn [puzzle solution across down]. fold g. rewrite Hcm.
  rewrite firstPass_puzzleRows, firstPass_solutionRows.
  assert (secondPass (game p) [] = ([], [])) as ->.
  { unfold secondPass. destruct (srcClues (game p)); [by rewrite !referenced_empty_map|].
    rewrite inferred_pushes. f_equal; apply concat_nils; intros c.
    - unfold acrossAt. repeat case_match; try done; apply pushWord_empty_map.
    - unfold downAt. repeat case_match; try done; apply pushWord_empty_map. }
  repeat split; try done;
    apply Forall_fmap, Forall_forall; intros y Hy%elem_of_seq; simpl;
    apply Forall_fmap, Forall_forall; intros x Hx%elem_of_seq; simpl.
  - unfold puzzleCellAt. cbn [fst snd]. rewrite Hall; [done|lia|unfold gridHeight in *; lia].
  - unfold solutionCellAt. cbn [fst snd]. rewrite Hall; [done|lia|unfold gridHeight in *; lia].
Qed.

Lemma all_blocks_grid_witness :
  puzzle (convertSMHToIPUZ "2025-10-08" Samples.blocksOnly) = [[Block; Block]; [Block; Block]]
  ∧ Forall (Forall (λ c, c = Block)) (puzzle (convertSMHToIPUZ "2025-10-08" Samples.blocksOnly)).
Proof.
  split; [reflexivity|].
  apply (all_blocks_grid "2025-10-08" Samples.blocksOnly).
  intros [|[|x]] [|[|y]] Hx Hy; try reflexivity; vm_compute in Hx, Hy; lia.
Defined.
End ClueNumbers.

(** ** Metadata *)

Section Metadata.
Import Terms.

Lemma stripPrefix_app p s : Smh.stripPrefix p (p +:+ s) = Some s.
Proof.
  induction p as [|a p IH]; [done|]. rewrite string_app_cons. simpl.
  by rewrite Ascii.eqb_refl.
Qed.

Lemma stripPrefix_Some p s r : Smh.stripPrefix p s = Some r → s = p +:+ r.
Proof.
  revert s. induction p as [|a p IH]; intros s; simpl; [by intros [= ->]|].
  destruct s as [|b s]; [done|].
  destruct (Ascii.eqb_spec a b) as [->|]; [|done].
  intros H%IH. by rewrite string_app_cons, H.
Qed.

(** The title is the difficulty of the source without a leading
    [CROSSWORD_], removed once; a difficulty that does not start with it is
    the title as it is, and without a difficulty the title is [SMH]. *)
Theorem smh_title (today : string) (p : Smh.Puzzle) :
  let t := Smh.title (Smh.convertSMHToIPUZ today p) in
  (Js.truthy (Smh.difficulty p) = false → t = "SMH")
  ∧ (∀ s, Smh.difficulty p = Some ("CROSSWORD_" +:+ s) → t = s)
  ∧ (∀ d, Smh.difficulty p = Some d → d ≠ "" →
       (∀ s, d ≠ "CROSSWORD_" +:+ s) → t = d).
Proof.
  cbv zeta. unfold Smh.convertSMHToIPUZ, Smh.dropCrosswordPrefix, Js.orElse.
  cbn [Smh.title]. split; [|split].
  - by intros ->.
  - intros s ->. change (Js.truthy _) with true. cbn [from_option id].
    by rewrite stripPrefix_app.
  - intros d -> Hd Hpre. destruct d as [|a d]; [done|]. cbn [Js.truthy from_option id].
    destruct (Smh.stripPrefix "CROSSWORD_" (String a d)) as [r|] eqn:Hr; [|done].
    apply stripPrefix_Some in Hr. by destruct (Hpre r).
Qed.

Lemma smh_title_witness :
  Smh.title (Smh.convertSMHToIPUZ "2025-10-08" Samples.doubledPrefix) = "CROSSWORD_MINI".
Proof.
  exact (proj1 (proj2 (smh_title "2025-10-08" Samples.doubledPrefix))
           "CROSSWORD_MINI" eq_refl).
Defined.

Lemma lacks_no_sep c s : lacks c s = true → ∀ s1 s2, s ≠ s1 +:+ String c s2.
Proof.
  induction s as [|a s IH]; intros H s1 s2 Heq.
  - by destruct s1.
  - simpl in H. apply andb_true_iff in H as [Ha Hs].
    destruct s1 as [|b s1].
    + injection Heq as -> _. by rewrite Ascii.eqb_refl in Ha.
    + rewrite string_app_cons in Heq. injection Heq as _ Heq. by eapply IH.
Qed.

Lemma split_three c x y z :
  lacks c x = true → lacks c y = true → lacks c z = true →
  Js.split c (x +:+ String c (y +:+ String c z)) = [x; y; z].
Proof.
  intros Hx Hy Hz. unfold Js.split.
  rewrite splitAux_app by by apply lacks_no_sep.
  rewrite splitAux_app by by apply lacks_no_sep.
  rewrite splitAux_no_sep by by apply lacks_no_sep. done.
Qed.

(** A publication date [y-m-d] whose three parts hold no ['-'] becomes the
    date [m/d/y] of the document; a publication date without any ['-'] gives
    [undefined/undefined/] followed by that date, and no error. *)
Theorem nyt_date_reformatted (pd : Nyt.PuzzleData) (rd : Nyt.RootData) (out : Nyt.Ipuz) :
  Nyt.convertToIPUZ pd rd = Nyt.Ok out →
  (∀ y m d,
     Nyt.publicationDate rd = y +:+ "-" +:+ m +:+ "-" +:+ d →
     lacks "-" y = true → lacks "-" m = true → lacks "-" d = true →
     Nyt.date out = m +:+ "/" +:+ d +:+ "/" +:+ y)
  ∧ (lacks "-" (Nyt.publicationDate rd) = true →
     Nyt.date out = "undefined/undefined/" +:+ Nyt.publicationDate rd)
  ∧ Nyt.uniqueid out = "nyt-mini-" +:+ Nyt.publicationDate rd.
Proof.
  unfold Nyt.convertToIPUZ. destruct (Nyt.buildClues (Nyt.clues pd)) as [m0|e]; [|done].
  cbn [Nyt.bind]. intros [= <-]. cbn [Nyt.date Nyt.uniqueid]. split; [|split; [|done]].
  - intros y m d -> Hy Hm Hd.
    change (y +:+ "-" +:+ m +:+ "-" +:+ d) with (y +:+ String "-" (m +:+ String "-" d)).
    by rewrite split_three.
  - intros Hno. unfold Js.split.
    rewrite splitAux_no_sep by by apply lacks_no_sep. done.
Qed.

Lemma nyt_date_reformatted_witness :
  ∃ out, Nyt.convertToIPUZ Examples.labeled Examples.nytRoot = Nyt.Ok out
         ∧ Nyt.date out = "10/08/2025".
Proof.
  eexists. split; [reflexivity|].
  exact (proj1 (nyt_date_reformatted Examples.labeled Examples.nytRoot _ eq_refl)
           "2025" "10" "08" eq_refl eq_refl eq_refl eq_refl).
Defined.
End Metadata.

(** ** Cell records of the labeled-cell converter *)

Section NytRecords.
Import Nyt Spec Terms.

Lemma flat_index_bound w h row col : row < h → col < w → row * w + col < w * h.
Proof. intros Hr Hc. nia. Qed.

(** Only the first [width * height] cell records count: two documents that
    agree on the dimensions, on those records and on the clues convert to
    the same result, whatever records follow. *)
Theorem surplus_records_ignored (pd pd' : PuzzleData) (rd : RootData) :
  dimensions pd = dimensions pd' →
  take (width (dimensions pd) * height (dimensions pd)) (cells pd)
  = take (width (dimensions pd) * height (dimensions pd)) (cells pd') →
  clues pd = clues pd' →
  convertToIPUZ pd rd = convertToIPUZ pd' rd.
Proof.
  intros Hdim Hcells Hclues.
  assert (buildGrids pd = buildGrids pd') as Hg.
  { rewrite !buildGrids_rows, <- Hdim.
    f_equal; apply list_fmap_ext; intros _ row Hrow%list_elem_of_lookup_2%elem_of_seq;
      apply list_fmap_ext; intros _ col Hcol%list_elem_of_lookup_2%elem_of_seq;
      do 2 f_equal;
      rewrite <- (lookup_take_lt (cells pd) (width (dimensions pd) * height (dimensions pd)))
        by (apply flat_index_bound; lia);
      rewrite <- (lookup_take_lt (cells pd') (width (dimensions pd) * height (dimensions pd)))
        by (apply flat_index_bound; lia);
      by rewrite Hcells. }
  unfold convertToIPUZ. by rewrite Hg, Hclues, Hdim.
Qed.

Lemma surplus_records_ignored_witness :
  convertToIPUZ Samples.labeledAndMore Examples.nytRoot
  = convertToIPUZ Examples.labeled Examples.nytRoot.
Proof.
  apply surplus_records_ignored; reflexivity.
Defined.
End NytRecords.

(** ** Labels that are numerals *)

Section Numerals.
Import Nyt Terms.

(** A cell record with a solution letter whose label is the decimal
    numeral of [n] shows, in the puzzle grid, the double nearest to [n]:
    that is [n] itself as long as [n] is at most [2^53]. *)
Theorem numeral_label_shown (n : nat) (c : Cell) (a : ascii) (rest : string) :
  answer c = Some (String a rest) → label c = Some (Js.natToString n) →
  cellOut (Some (Some c)) = (Val (toDouble (Z.of_nat n)), String a rest)
  ∧ ((Z.of_nat n ≤ 2 ^ 53)%Z →
     cellOut (Some (Some c)) = (Num (Z.of_nat n), String a rest)).
Proof.
  intros Ha Hl.
  assert (cellOut (Some (Some c)) = (Val (toDouble (Z.of_nat n)), String a rest)) as Hc.
  { destruct c as [ans lb]. simpl in Ha, Hl. subst ans lb.
    unfold cellOut, letterOf. cbn [mbind option_bind id answer label].
    change (Js.truthy (Some (String a rest))) with true.
    cbn [fmap option_fmap option_map label].
    destruct (natToString_digits n) as (d & Hd & Hs & _).
    assert (Js.truthy (Some (Js.natToString n)) = true) as ->.
    { rewrite Hs. by destruct d. }
    cbn [from_option id]. by rewrite parseInt_numeral. }
  split; [exact Hc|]. intros Hn. rewrite Hc.
  rewrite toDouble_exact; [done|lia].
Qed.

Lemma numeral_label_shown_witness :
  cellOut (Some (Some {| answer := Some "Q"; label := Some (Js.natToString 17) |}))
  = (Num 17, "Q").
Proof.
  apply (proj2 (numeral_label_shown 17 {| answer := Some "Q"; label := Some (Js.natToString 17) |}
                  "Q" "" eq_refl eq_refl)).
  by vm_compute.
Defined.
End Numerals.

(** ** Listing the bucket *)

Section Listing.
Import Worker Terms.

Lemma listLoop_pages bucket cur pages :
  Pages bucket cur pages →
  ∀ fuel files,
    listLoop fuel bucket cur files
    = if length pages <=? fuel
      then Some (files ++ (fileInfo <$> concat (objects <$> pages)))
      else None.
Proof.
  induction 1 as [cur Hstop|cur rest Htr Hcur _ IH]; intros [|fuel] files; try done.
  - cbn [listLoop]. rewrite Hstop. simpl. by rewrite app_nil_r.
  - cbn [listLoop]. rewrite Htr, Hcur, IH. cbn [length].
    change (S (length rest) <=? S fuel) with (length rest <=? fuel).
    destruct (length rest <=? fuel); [|done].
    by rewrite fmap_cons, (concat_cons (objects (bucket cur))), fmap_app, app_assoc.
Qed.

(** When the listings of the bucket chain up to a last one, [listAllFiles]
    returns the objects of all of them, in order, after as many calls of
    [list] as there are listings; before that the loop is still running.
    With a bucket that always reports a truncated listing and a cursor, the
    loop never ends. *)
Theorem listAllFiles_pages (bucket : Bucket) :
  (∀ pages, Pages bucket None pages →
     (∀ fuel, length pages ≤ fuel →
        listAllFiles fuel bucket = Some (fileInfo <$> concat (objects <$> pages)))
     ∧ (∀ fuel, fuel < length pages → listAllFiles fuel bucket = None))
  ∧ ((∀ cur, truncated (bucket cur) = true ∧ Js.truthy (cursor (bucket cur)) = true) →
     ∀ fuel, listAllFiles fuel bucket = None).
Proof.
  split.
  - intros pages Hp. unfold listAllFiles.
    split; intros fuel Hf; rewrite (listLoop_pages _ _ _ Hp).
    + by destruct (Nat.leb_spec (length pages) fuel); [|lia].
    + by destruct (Nat.leb_spec (length pages) fuel); [lia|].
  - intros Hmore fuel. unfold listAllFiles.
    generalize (@None string) ([] : list FileInfo).
    induction fuel as [|fuel IH]; intros cur files; [done|].
    cbn [listLoop]. destruct (Hmore cur) as [-> ->]. apply IH.
Qed.

Lemma listAllFiles_pages_witness :
  listAllFiles 2 Samples.twoPages
  = Some (fileInfo <$> [Samples.fileObject "nyt-mini-2025-10-08.ipuz";
                        Samples.fileObject "notes.txt";
                        Samples.fileObject "smh-crossword_mini-2025-10-09.ipuz";
                        Samples.fileObject "nyt-mini-2025-11-01.ipuz"])
  ∧ listAllFiles 5 Samples.endless = None.
Proof.
  split.
  - apply (proj1 (proj1 (listAllFiles_pages Samples.twoPages)
                    [Samples.twoPages None; Samples.twoPages (Some "next")]
                    ltac:(by repeat constructor))).
    simpl. lia.
  - apply (proj2 (listAllFiles_pages Samples.endless)). by intros cur.
Defined.
End Listing.

(** ** File names and their dates *)

Section KeyDates.
Import Worker Terms.

Lemma isDigit_not_dot a : isDigit a = true → Ascii.eqb a "." = false.
Proof. destruct a as [[] [] [] [] [] [] [] []]; done. Qed.

Lemma isDigit_not_dash a : isDigit a = true → Ascii.eqb a "-" = false.
Proof. destruct a as [[] [] [] [] [] [] [] []]; done. Qed.

Lemma matchTail_dot s r : matchTail s = Some r → prefixLacks 12 "." s = false.
Proof.
  unfold matchTail.
  repeat (destruct s as [|? s]; [done|]).
  match goal with |- (if ?b then _ else _) = _ → _ => destruct b eqn:E end; [|done].
  intros _. repeat (apply andb_true_iff in E as [E ?]).
  cbn [prefixLacks].
  match goal with H : Ascii.eqb _ "." = true |- _ => rewrite H end.
  cbn. by rewrite !andb_false_r.
Qed.

Lemma prefixLacks_app n c q t :
  lacks c q = true → prefixLacks n c t = true →
  prefixLacks (String.length q + n) c (q +:+ t) = true.
Proof.
  induction q as [|a q IH]; [done|].
  intros Hq Ht. revert Hq. rewrite string_app_cons. cbn [lacks String.length Nat.add prefixLacks].
  intros [-> Hq]%andb_true_iff. by rewrite IH.
Qed.

Lemma prefixLacks_le n k c s :
  n ≤ k → prefixLacks k c s = true → prefixLacks n c s = true.
Proof.
  revert k s. induction n as [|n IH]; intros k s Hk; [done|].
  destruct k as [|k]; [lia|]. destruct s as [|a s]; [done|].
  cbn [prefixLacks]. intros [-> H]%andb_true_iff. apply (IH k); [lia|done].
Qed.

Lemma isoDate_chars y m d :
  isoDate y m d →
  ∃ y1 y2 y3 y4 m1 m2 d1 d2,
    y = String y1 (String y2 (String y3 (String y4 "")))
    ∧ m = String m1 (String m2 "") ∧ d = String d1 (String d2 "")
    ∧ Forall (λ a, isDigit a = true) [y1; y2; y3; y4; m1; m2; d1; d2].
Proof.
  intros ([Ly Dy] & [Lm Dm] & [Ld Dd]).
  do 5 (destruct y as [|? y]; try done).
  do 3 (destruct m as [|? m]; try done).
  do 3 (destruct d as [|? d]; try done).
  cbn [allDigits] in Dy, Dm, Dd.
  repeat match goal with H : _ && _ = true |- _ => apply andb_true_iff in H as [? ?] end.
  do 8 eexists. repeat split. by repeat constructor.
Qed.

Lemma matchTail_date y m d :
  isoDate y m d →
  matchTail ("-" +:+ y +:+ "-" +:+ m +:+ "-" +:+ d +:+ ".ipuz") = Some (y, m, d)
  ∧ prefixLacks 11 "." ("-" +:+ y +:+ "-" +:+ m +:+ "-" +:+ d +:+ ".ipuz") = true
  ∧ matchAt ("-" +:+ y +:+ "-" +:+ m +:+ "-" +:+ d +:+ ".ipuz") = None.
Proof.
  intros (y1 & y2 & y3 & y4 & m1 & m2 & d1 & d2 & -> & -> & -> & H)%isoDate_chars.
  repeat match goal with H : Forall _ (_ :: _) |- _ => apply Forall_cons in H as [? H] end.
  split; [|split]; [| |done].
  - cbv [String.append matchTail].
    by repeat match goal with H : isDigit _ = true |- _ => rewrite H; clear H end.
  - cbv [String.append prefixLacks].
    by repeat match goal with H : isDigit _ = true |- _ =>
      rewrite (isDigit_not_dot _ H); clear H end.
Qed.

Lemma matchTail_stem q y m d :
  isoDate y m d → q ≠ "" → lacks "." q = true →
  matchTail (q +:+ "-" +:+ y +:+ "-" +:+ m +:+ "-" +:+ d +:+ ".ipuz") = None.
Proof.
  intros Hd Hq Hl.
  destruct (matchTail _) as [r|] eqn:E; [|done].
  apply matchTail_dot in E.
  destruct (matchTail_date y m d Hd) as (_ & Ht & _).
  pose proof (prefixLacks_app 11 "." q _ Hl Ht) as H.
  apply (prefixLacks_le 12) in H; [congruence|].
  destruct q; [done|]. cbn [String.length]. lia.
Qed.

Lemma matchAt_stem q y m d r :
  isoDate y m d → lacks "." q = true →
  matchAt (q +:+ "-" +:+ y +:+ "-" +:+ m +:+ "-" +:+ d +:+ ".ipuz") = Some r →
  r = (y, m, d).
Proof.
  intros Hd. induction q as [|a q IH].
  - intros _. change ("" +:+ ?s) with s.
    destruct (matchTail_date y m d Hd) as (_ & _ & ->). done.
  - cbn [lacks]. intros [_ Hq]%andb_true_iff. rewrite string_app_cons.
    cbn [matchAt]. destruct (Ascii.eqb a "-"); [done|].
    destruct (matchAt _) as [r'|] eqn:E.
    + intros [= <-]. by apply IH.
    + destruct q as [|b q].
      * change ("" +:+ ?s) with s.
        destruct (matchTail_date y m d Hd) as (-> & _). congruence.
      * by rewrite matchTail_stem.
Qed.

Lemma matchKey_eq s :
  matchKey s = match matchAt s with
               | Some r => Some r
               | None => match s with
                         | EmptyString => None
                         | String _ rest => matchKey rest
                         end
               end.
Proof. by destruct s. Qed.

Lemma matchKey_datedKey stem y m d :
  isoDate y m d → lacks "." stem = true → lastIsNot "-" stem = true →
  matchKey (datedKey stem y m d) = Some (y, m, d).
Proof.
  intros Hd. unfold datedKey. induction stem as [|a p IH]; [done|].
  intros Hl Hlast. rewrite matchKey_eq.
  destruct (matchAt _) as [r|] eqn:E.
  - f_equal. by apply (matchAt_stem (String a p) y m d).
  - revert E. rewrite string_app_cons. intros E.
    revert Hl. cbn [lacks]. intros [_ Hl]%andb_true_iff.
    destruct p as [|b p].
    + exfalso. revert E. cbn [matchAt]. cbn [lastIsNot] in Hlast.
      apply negb_true_iff in Hlast. rewrite Hlast.
      change ("" +:+ ?s) with s.
      destruct (matchTail_date y m d Hd) as (-> & _ & ->). done.
    + apply IH; [done|]. exact Hlast.
Qed.

(** A key made of a stem, a dash, a date of four, two and two digits and
    [.ipuz] is read by the pattern as that date, whatever dashes the stem
    holds, provided it holds no full stop and does not end in a dash. *)
Theorem dated_key_read stem y m d :
  isoDate y m d → lacks "." stem = true → lastIsNot "-" stem = true →
  matchKey (datedKey stem y m d) = Some (y, m, d).
Proof. apply matchKey_datedKey. Qed.

Lemma dated_key_read_witness :
  matchKey (datedKey "nyt-mini" "2025" "10" "08") = Some ("2025", "10", "08").
Proof. apply dated_key_read; [by repeat split | done | done]. Defined.
End KeyDates.

(** ** The entries of the home page *)

Section SortWithFacts.
Context {A : Type} (cmp : A → A → Z) (R : relation A).
Context (Hcmp : ∀ a b, (cmp a b <=? 0)%Z = true ↔ R a b).
Context (Htrans : Transitive R) (Htotal : Total R).

Lemma insertWith_perm a l : Worker.insertWith cmp a l ≡ₚ a :: l.
Proof.
  induction l as [|b l IH]; simpl; [done|].
  destruct (cmp a b <=? 0)%Z; [done|].
  rewrite IH. apply Permutation_swap.
Qed.

Lemma sortWith_perm l : Worker.sortWith cmp l ≡ₚ l.
Proof.
  induction l as [|a l IH]; simpl; [done|].
  by rewrite insertWith_perm, IH.
Qed.

Lemma insertWith_sorted a l :
  StronglySorted R l → StronglySorted R (Worker.insertWith cmp a l).
Proof.
  induction l as [|b l IH]; intros Hs; simpl.
  - by repeat constructor.
  - apply StronglySorted_inv in Hs as [Hl Hb].
    destruct (cmp a b <=? 0)%Z eqn:E.
    + apply Hcmp in E. constructor; [by constructor|].
      constructor; [done|]. eapply Forall_impl; [exact Hb|].
      intros c Hc. by transitivity b.
    + constructor; [by apply IH|].
      rewrite insertWith_perm. constructor; [|done].
      destruct (Htotal a b) as [Hab|Hba]; [|done].
      apply Hcmp in Hab. congruence.
Qed.

Lemma sortWith_sorted l : StronglySorted R (Worker.sortWith cmp l).
Proof.
  induction l as [|a l IH]; simpl; [constructor|]. by apply insertWith_sorted.
Qed.
End SortWithFacts.

Section HomePage.
Import Worker Terms.

Lemma prefix_app p s : String.prefix p (p +:+ s) = true.
Proof.
  induction p as [|a p IH]; [by destruct s|].
  rewrite string_app_cons. cbn [String.prefix].
  by destruct (ascii_dec a a).
Qed.

Lemma prefix_both a b k :
  String.prefix a k = true → String.prefix b k = true →
  String.prefix a b = true ∨ String.prefix b a = true.
Proof.
  revert b k. induction a as [|x a IH]; intros b k; [by left; destruct b|].
  destruct b as [|y b]; [by right|].
  destruct k as [|z k]; [done|]. cbn [String.prefix].
  destruct (ascii_dec x z) as [->|]; [|done].
  destruct (ascii_dec y z) as [->|]; [|done].
  destruct (ascii_dec z z); [|done]. apply IH.
Qed.

Lemma localeCompare_le a b : (localeCompare a b <=? 0)%Z = true ↔ String.le a b.
Proof.
  unfold localeCompare, String.le, String.leb.
  destruct (String.compare a b); done.
Qed.

Lemma elem_of_typePuzzles bucketUrl type files p :
  p ∈ typePuzzles bucketUrl type files
  ↔ ∃ f, f ∈ files ∧ String.prefix (id type +:+ "-") (fileKey f) = true
         ∧ puzzleInfo bucketUrl type f = Some p.
Proof.
  unfold typePuzzles. rewrite sortWith_perm, list_elem_of_omap.
  split; intros (f & Hf & Hp).
  - apply list_elem_of_In, filter_In in Hf as [Hf Hpre].
    exists f. by rewrite list_elem_of_In.
  - destruct Hp as [Hpre Hp]. exists f. split; [|done].
    apply list_elem_of_In, filter_In. by rewrite <- list_elem_of_In.
Qed.

Lemma matchTail_isoDate s y m d : matchTail s = Some (y, m, d) → isoDate y m d.
Proof.
  unfold matchTail.
  repeat (destruct s as [|? s]; [done|]).
  match goal with |- (if ?b then _ else _) = _ → _ => destruct b eqn:E end; [|done].
  intros [= <- <- <-]. repeat (apply andb_true_iff in E as [E ?]).
  unfold isoDate. cbn [String.length allDigits].
  repeat match goal with H : isDigit _ = true |- _ => rewrite H; clear H end.
  done.
Qed.

Lemma matchAt_isoDate s y m d : matchAt s = Some (y, m, d) → isoDate y m d.
Proof.
  induction s as [|a s IH]; [done|]. cbn [matchAt].
  destruct (Ascii.eqb a "-"); [done|].
  destruct (matchAt s) as [r|].
  - intros [= ->]. by apply IH.
  - apply matchTail_isoDate.
Qed.

Lemma matchKey_isoDate s y m d : matchKey s = Some (y, m, d) → isoDate y m d.
Proof.
  induction s as [|a s IH]; rewrite matchKey_eq.
  - done.
  - destruct (matchAt _) as [r|] eqn:E; [|exact IH].
    intros [= ->]. by apply matchAt_isoDate in E.
Qed.

Lemma puzzleInfo_Some bucketUrl type f p :
  puzzleInfo bucketUrl type f = Some p
  ↔ ∃ y m d, matchKey (fileKey f) = Some (y, m, d) ∧ p = entryOf bucketUrl type f y m d.
Proof.
  unfold puzzleInfo. destruct (matchKey _) as [[[y m] d]|].
  - split.
    + intros [= <-]. by exists y, m, d.
    + by intros (? & ? & ? & [= <- <- <-] & ->).
  - split; [done|]. by intros (? & ? & ? & ? & _).
Qed.

(** Every entry of a tab of the home page stands for a listed file whose
    name starts with the tab's identifier and a dash; its date has the form
    of four, two and two digits, and its fields are those of the file. *)
Theorem listed_entries bucketUrl type files p :
  p ∈ typePuzzles bucketUrl type files ↔
  ∃ f y m d, f ∈ files
    ∧ String.prefix (id type +:+ "-") (fileKey f) = true
    ∧ matchKey (fileKey f) = Some (y, m, d)
    ∧ isoDate y m d
    ∧ p = entryOf bucketUrl type f y m d.
Proof.
  rewrite elem_of_typePuzzles. split.
  - intros (f & Hf & Hpre & (y & m & d & Hk & ->)%puzzleInfo_Some).
    exists f, y, m, d. split_and!; try done. by apply matchKey_isoDate in Hk.
  - intros (f & y & m & d & Hf & Hpre & Hk & _ & ->).
    exists f. repeat split; try done. apply puzzleInfo_Some. by exists y, m, d.
Qed.

Lemma dated_name stem y m d :
  stem +:+ "-" +:+ dashed y m d +:+ ".ipuz" = datedKey stem y m d.
Proof. unfold dashed, datedKey. by rewrite !string_app_assoc. Qed.

Lemma puzzleTypes_ids type :
  type ∈ puzzleTypes → lacks "." (id type) = true ∧ lastIsNot "-" (id type) = true.
Proof.
  unfold puzzleTypes. rewrite !elem_of_cons, elem_of_nil.
  intros [->|[->|[->|[->|[]]]]]; done.
Qed.

Lemma listed_datedKey bucketUrl type files f y m d :
  isoDate y m d → lacks "." (id type) = true → lastIsNot "-" (id type) = true →
  f ∈ files → fileKey f = datedKey (id type) y m d →
  entryOf bucketUrl type f y m d ∈ typePuzzles bucketUrl type files.
Proof.
  intros Hd Hl Hlast Hf Hk. apply elem_of_typePuzzles. exists f. split_and!; [done| |].
  - rewrite Hk. unfold datedKey. rewrite <- string_app_assoc. apply prefix_app.
  - apply puzzleInfo_Some. exists y, m, d. split; [|done].
    rewrite Hk. by apply matchKey_datedKey.
Qed.

Lemma tabs_prefix_disjoint t1 t2 k :
  t1 ∈ puzzleTypes → t2 ∈ puzzleTypes →
  String.prefix (id t1 +:+ "-") k = true → String.prefix (id t2 +:+ "-") k = true →
  t1 = t2.
Proof.
  intros H1 H2 P1 P2. pose proof (prefix_both _ _ _ P1 P2) as H. revert H1 H2 H.
  unfold puzzleTypes. rewrite !elem_of_cons, !elem_of_nil.
  intros [->|[->|[->|[->|[]]]]] [->|[->|[->|[->|[]]]]]; try done;
    vm_compute; by intros [|].
Qed.

(** The file the conversion stores for the labeled-cell puzzle of a
    publication date of four, two and two digits is an entry of the first
    tab of the home page, under that date. *)
Theorem nyt_file_listed bucketUrl files type f y m d :
  isoDate y m d → type ∈ puzzleTypes → id type = "nyt-mini" →
  f ∈ files → fileKey f = nytFilename (dashed y m d) →
  entryOf bucketUrl type f y m d ∈ typePuzzles bucketUrl type files.
Proof.
  intros Hd Ht Hid Hf Hk. destruct (puzzleTypes_ids type Ht) as [Hl Hlast].
  apply listed_datedKey; try done.
  rewrite Hk, Hid. unfold nytFilename. rewrite <- dated_name.
  by rewrite <- !string_app_assoc.
Qed.

Lemma nyt_file_listed_witness :
  ∃ type f, type ∈ puzzleTypes ∧ f ∈ Samples.files
    ∧ entryOf "https://b" type f "2025" "10" "08"
      ∈ typePuzzles "https://b" type Samples.files.
Proof.
  exists {| id := "nyt-mini"; name := "NYT Mini" |},
    (fileInfo (Samples.fileObject "nyt-mini-2025-10-08.ipuz")).
  assert ({| id := "nyt-mini"; name := "NYT Mini" |} ∈ puzzleTypes) as Ht
    by (by apply list_elem_of_lookup_2 with 0).
  assert (fileInfo (Samples.fileObject "nyt-mini-2025-10-08.ipuz") ∈ Samples.files) as Hf
    by (by apply list_elem_of_lookup_2 with 0).
  split; [exact Ht|]. split; [exact Hf|].
  apply nyt_file_listed; [by repeat split | exact Ht | reflexivity | exact Hf | reflexivity].
Defined.

(** The file stored for a block-grid puzzle whose difficulty, in lower
    case and after [smh-], is the identifier of a tab is an entry of that
    tab, under the puzzle's date, or under the day of the conversion when
    the puzzle has none. *)
Theorem smh_file_listed today bucketUrl files original index diff type f y m d :
  isoDate y m d → type ∈ puzzleTypes →
  Smh.difficulty original = Some diff → id type = "smh-" +:+ toLowerCase diff →
  Js.orElse (Smh.srcDate original) today = dashed y m d →
  f ∈ files → fileKey f = smhFilename today original index →
  entryOf bucketUrl type f y m d ∈ typePuzzles bucketUrl type files.
Proof.
  intros Hd Ht Hdiff Hid Hdate Hf Hk. destruct (puzzleTypes_ids type Ht) as [Hl Hlast].
  apply listed_datedKey; try done.
  rewrite Hk. unfold smhFilename. rewrite Hdate, Hdiff. cbn [fmap option_fmap option_map].
  assert (Js.orElse (Some (toLowerCase diff)) ("puzzle-" +:+ Js.natToString (index + 1))
          = toLowerCase diff) as ->.
  { revert Ht Hid. unfold puzzleTypes. rewrite !elem_of_cons, elem_of_nil.
    intros [->|[->|[->|[->|[]]]]]; cbn [id]; cbv [String.append];
      intros [= Hx]; by rewrite <- Hx. }
  rewrite <- dated_name, Hid. by rewrite <- !string_app_assoc.
Qed.

Lemma smh_file_listed_witness :
  ∃ type f, type ∈ puzzleTypes ∧ f ∈ Samples.files
    ∧ entryOf "https://b" type f "2025" "10" "08"
      ∈ typePuzzles "https://b" type Samples.files.
Proof.
  exists {| id := "smh-crossword_quick"; name := "SMH Quick" |},
    (fileInfo (Samples.fileObject "smh-crossword_quick-2025-10-08.ipuz")).
  assert ({| id := "smh-crossword_quick"; name := "SMH Quick" |} ∈ puzzleTypes) as Ht
    by (by apply list_elem_of_lookup_2 with 2).
  assert (fileInfo (Samples.fileObject "smh-crossword_quick-2025-10-08.ipuz")
          ∈ Samples.files) as Hf
    by (by apply list_elem_of_lookup_2 with 3).
  split; [exact Ht|]. split; [exact Hf|].
  apply (smh_file_listed "2025-10-08" _ _ Examples.catDot 0 "CROSSWORD_QUICK");
    [by repeat split | exact Ht | reflexivity | reflexivity | reflexivity
    | exact Hf | reflexivity].
Defined.

(** No file is an entry of two tabs. *)
Theorem tabs_disjoint bucketUrl files t1 t2 p1 p2 :
  t1 ∈ puzzleTypes → t2 ∈ puzzleTypes → t1 ≠ t2 →
  p1 ∈ typePuzzles bucketUrl t1 files → p2 ∈ typePuzzles bucketUrl t2 files →
  infoKey p1 ≠ infoKey p2.
Proof.
  intros H1 H2 Hne (f1 & Hf1 & P1 & (y1 & m1 & d1 & _ & ->)%puzzleInfo_Some)%elem_of_typePuzzles
    (f2 & Hf2 & P2 & (y2 & m2 & d2 & _ & ->)%puzzleInfo_Some)%elem_of_typePuzzles.
  cbn [entryOf infoKey]. intros Hk. rewrite Hk in P1.
  by apply Hne, (tabs_prefix_disjoint t1 t2 (fileKey f2)).
Qed.

Lemma tabs_disjoint_witness :
  ∃ t1 t2 p1 p2, p1 ∈ typePuzzles "https://b" t1 Samples.files
    ∧ p2 ∈ typePuzzles "https://b" t2 Samples.files
    ∧ infoKey p1 ≠ infoKey p2.
Proof.
  exists {| id := "nyt-mini"; name := "NYT Mini" |},
    {| id := "smh-crossword_quick"; name := "SMH Quick" |}.
  eexists _, _.
  assert (∀ A (x : A) l i, l !! i = Some x → x ∈ l) as Hin
    by (intros; by eapply list_elem_of_lookup_2).
  split; [|split]; [| |apply (tabs_disjoint "https://b" Samples.files
                             {| id := "nyt-mini"; name := "NYT Mini" |}
                             {| id := "smh-crossword_quick"; name := "SMH Quick" |})].
  - apply (Hin _ _ _ 0). vm_compute. reflexivity.
  - apply (Hin _ _ _ 0). vm_compute. reflexivity.
  - by apply (Hin _ _ _ 0).
  - by apply (Hin _ _ _ 2).
  - done.
  - apply (Hin _ _ _ 0). vm_compute. reflexivity.
  - apply (Hin _ _ _ 0). vm_compute. reflexivity.
Defined.

(** A block-grid puzzle that names no difficulty, or an empty one, is
    stored under the name [smh-puzzle-N-date.ipuz], where [N] is its place
    among the converted puzzles counted from 1 and the date is its own or,
    without one, the day of the conversion; and no tab of the home page has
    an entry for a file of that name. *)
Theorem unrated_file_unlisted today bucketUrl files original index :
  Js.truthy (Smh.difficulty original) = false →
  smhFilename today original index
  = "smh-puzzle-" +:+ Js.natToString (index + 1) +:+ "-"
      +:+ Js.orElse (Smh.srcDate original) today +:+ ".ipuz"
  ∧ ∀ type p, type ∈ puzzleTypes → p ∈ typePuzzles bucketUrl type files →
      infoKey p ≠ smhFilename today original index.
Proof.
  intros Hdiff.
  assert (smhFilename today original index
          = "smh-puzzle-" +:+ Js.natToString (index + 1) +:+ "-"
              +:+ Js.orElse (Smh.srcDate original) today +:+ ".ipuz") as Hname.
  { unfold smhFilename.
    assert (Js.orElse (toLowerCase <$> Smh.difficulty original)
              ("puzzle-" +:+ Js.natToString (index + 1))
            = "puzzle-" +:+ Js.natToString (index + 1)) as ->.
    { destruct (Smh.difficulty original) as [[|a s]|]; done. }
    reflexivity. }
  split; [exact Hname|].
  intros type p Ht (f & Hf & P & (y & m & d & _ & ->)%puzzleInfo_Some)%elem_of_typePuzzles.
  cbn [entryOf infoKey]. intros Hk. revert P. rewrite Hk, Hname.
  revert Ht. unfold puzzleTypes. rewrite !elem_of_cons, elem_of_nil.
  intros [->|[->|[->|[->|[]]]]]; cbn [id]; cbv [String.append String.prefix]; done.
Qed.

Lemma unrated_file_unlisted_witness :
  smhFilename "2025-10-08" Samples.unrated 0 = "smh-puzzle-1-2025-10-08.ipuz"
  ∧ (∃ f, f ∈ Samples.files ∧ fileKey f = smhFilename "2025-10-08" Samples.unrated 0)
  ∧ ∃ p, p ∈ typePuzzles "https://b" {| id := "smh-crossword_quick"; name := "SMH Quick" |}
             Samples.files
         ∧ infoKey p ≠ smhFilename "2025-10-08" Samples.unrated 0.
Proof.
  assert (∀ A (x : A) l i, l !! i = Some x → x ∈ l) as Hin
    by (intros; by eapply list_elem_of_lookup_2).
  split; [|split].
  - exact (proj1 (unrated_file_unlisted "2025-10-08" "https://b" Samples.files
                    Samples.unrated 0 eq_refl)).
  - eexists. split; [apply (Hin _ _ _ 2); reflexivity|reflexivity].
  - eexists. split; [apply (Hin _ _ _ 0); vm_compute; reflexivity|].
    apply (proj2 (unrated_file_unlisted "2025-10-08" "https://b" Samples.files
                    Samples.unrated 0 eq_refl)
             {| id := "smh-crossword_quick"; name := "SMH Quick" |}).
    + by apply (Hin _ _ _ 2).
    + apply (Hin _ _ _ 0). vm_compute. reflexivity.
Defined.
End HomePage.

(** ** Order and archive of the home page *)

Section Archive.
Import Worker Terms.

Lemma typePuzzles_sorted bucketUrl type files :
  newestFirst (typePuzzles bucketUrl type files).
Proof.
  unfold newestFirst, typePuzzles.
  apply (sortWith_sorted _ (λ p q, String.le (date q) (date p))).
  - intros a b. apply localeCompare_le.
  - intros a b c Hab Hbc. by transitivity (date b).
  - intros a b. destruct (total String.le (date a) (date b)); auto.
Qed.

(** The entries of a tab run from the newest date to the oldest; the entry
    shown as the latest is the first of them, so no entry of the tab has a
    later date, and it is missing exactly when the tab has no entry. *)
Theorem entries_newest_first bucketUrl files type :
  newestFirst (all (typeData bucketUrl files type))
  ∧ (∀ l, latest (typeData bucketUrl files type) = Some l →
       l ∈ typePuzzles bucketUrl type files
       ∧ ∀ p, p ∈ typePuzzles bucketUrl type files → String.le (date p) (date l))
  ∧ (latest (typeData bucketUrl files type) = None
     ↔ typePuzzles bucketUrl type files = []).
Proof.
  unfold typeData. cbn [all latest].
  pose proof (typePuzzles_sorted bucketUrl type files) as Hs.
  split; [exact Hs|]. unfold newestFirst in Hs.
  destruct (typePuzzles bucketUrl type files) as [|q ps]; cbn [head].
  - split; [done|]. done.
  - split; [|done]. intros l [= <-]. split; [apply elem_of_cons; by left|].
    apply StronglySorted_inv in Hs as [_ Hq]. rewrite Forall_forall in Hq.
    intros p [->|Hp]%elem_of_cons; [done|]. by apply Hq.
Qed.

Lemma entries_newest_first_witness :
  ∃ l, latest (typeData "https://b" Samples.files {| id := "nyt-mini"; name := "NYT Mini" |})
       = Some l
    ∧ date l = "2025-11-01"
    ∧ ∀ p, p ∈ typePuzzles "https://b" {| id := "nyt-mini"; name := "NYT Mini" |} Samples.files →
           String.le (date p) (date l).
Proof.
  eexists. split; [vm_compute; reflexivity|]. split; [reflexivity|].
  refine (proj2 (proj1 (proj2 (entries_newest_first "https://b" Samples.files
                                 {| id := "nyt-mini"; name := "NYT Mini" |})) _ _)).
  vm_compute. reflexivity.
Defined.

Lemma filter_snoc_in {A} (P : A → Prop) `{∀ x, Decision (P x)} (l : list A) (x : A) :
  P x → filter P (l ++ [x]) = filter P l ++ [x].
Proof. intros HP. rewrite filter_app. cbn. by rewrite decide_True. Qed.

Lemma filter_snoc_out {A} (P : A → Prop) `{∀ x, Decision (P x)} (l : list A) (x : A) :
  ¬ P x → filter P (l ++ [x]) = filter P l.
Proof. intros HP. rewrite filter_app. cbn. rewrite decide_False by done. apply app_nil_r. Qed.

Lemma default_nonEmpty {A} (l : list A) : default [] (nonEmpty l) = l.
Proof. by destruct l. Qed.

Lemma nonEmpty_snoc {A} (l : list A) (x : A) : nonEmpty (l ++ [x]) = Some (l ++ [x]).
Proof. by destruct l. Qed.

Lemma group_lookup ps y m :
  fold_left groupPuzzle ps ∅ !! y ≫= (.!! m)
  = nonEmpty (filter (λ p, year p = y ∧ month p = m) ps).
Proof.
  induction ps as [|p ps IH] using rev_ind; [done|].
  rewrite fold_left_app. cbn [fold_left]. unfold groupPuzzle at 1.
  set (acc := fold_left groupPuzzle ps ∅) in *.
  destruct (decide (year p = y)) as [Hy|Hy].
  - rewrite Hy, lookup_insert_eq. cbn [mbind option_bind].
    destruct (decide (month p = m)) as [Hm|Hm].
    + rewrite Hm, lookup_insert_eq. rewrite filter_snoc_in by done.
      rewrite nonEmpty_snoc. f_equal. f_equal.
      rewrite <- (default_nonEmpty (filter _ ps)), <- IH.
      by destruct (acc !! y).
    + rewrite lookup_insert_ne by done. rewrite filter_snoc_out by tauto.
      rewrite <- IH. by destruct (acc !! y).
  - rewrite lookup_insert_ne by done. rewrite filter_snoc_out by tauto. exact IH.
Qed.

Lemma group_years ps y :
  is_Some (fold_left groupPuzzle ps ∅ !! y) ↔ ∃ p, p ∈ ps ∧ year p = y.
Proof.
  induction ps as [|p ps IH] using rev_ind.
  - cbn. rewrite lookup_empty. split; [by intros [? ?]|]. intros (p & Hp & _).
    by apply elem_of_nil in Hp.
  - rewrite fold_left_app. cbn [fold_left]. unfold groupPuzzle at 1.
    destruct (decide (year p = y)) as [Hy|Hy].
    + rewrite Hy, lookup_insert_eq. split; [|by eexists].
      intros _. exists p. split; [|done]. apply elem_of_app. right. by apply list_elem_of_singleton.
    + rewrite lookup_insert_ne by done. rewrite IH. split.
      * intros (q & Hq & Hqy). exists q. split; [|done]. apply elem_of_app. by left.
      * intros (q & [Hq|Hq%list_elem_of_singleton]%elem_of_app & Hqy); [by exists q|].
        congruence.
Qed.

(** The archive of a tab holds, under a year and a month, exactly the
    entries of the tab of that year and month, in the order of the tab; a
    month without entries is missing, and a year is present exactly when
    the tab has an entry of that year. *)
Theorem archive_grouped bucketUrl files type y m :
  (byYear (typeData bucketUrl files type) !! y ≫= (.!! m)
   = nonEmpty (filter (λ p, year p = y ∧ month p = m) (typePuzzles bucketUrl type files)))
  ∧ (is_Some (byYear (typeData bucketUrl files type) !! y)
     ↔ ∃ p, p ∈ typePuzzles bucketUrl type files ∧ year p = y).
Proof.
  unfold typeData. cbn [byYear]. split; [apply group_lookup | apply group_years].
Qed.
End Archive.
